(** * lmppl: perplexity of causal language models

    A shallow embedding of [lmppl/ppl_recurrent_lm.py] (class [LM] with its
    constructor and [get_perplexity]) and the properties of the batched
    scoring loop: padding, pad masking, the causal shift, the per-sequence
    mean of the token losses, batching and the optional forced clean-up.

    What the Python delegates to [torch] and [transformers] is kept as
    parameters: the element type of the float tensors with its arithmetic
    ([Scalar]), the forward pass of the pretrained model
    ([PreTrainedModel]) and the text encoder of the tokenizer
    ([Tokenizer]).  Tensors are nested lists; Python exceptions are the
    [Raise] results of the [result] monad. *)

From Stdlib Require Import ZArith List SpecFloat Ascii String Lia.
From stdpp Require Import base option list strings gmap.

Local Open Scope Z_scope.

(** ** Exceptions *)

Inductive exn :=
  | ValueError | IndexError | KeyError | RuntimeError
  | OverflowError | AssertionError | AttributeError.

Inductive result (A : Type) :=
  | Ok (a : A)
  | Raise (e : exn).
Arguments Ok {A} a.
Arguments Raise {A} e.

Global Instance result_ret : MRet result := λ A a, Ok a.
Global Instance result_bind : MBind result := λ A B f r,
  match r with Ok a => f a | Raise e => Raise e end.
Global Instance result_fmap : FMap result := λ A B f r,
  match r with Ok a => Ok (f a) | Raise e => Raise e end.

(** ** Tensors and keyword arguments

    [BatchEncoding] and the [batch_inputs] of the forward pass are
    dictionaries from field names to integer tensors of shape
    (batch, sequence). *)

Abbreviation kwargs := (gmap string (list (list Z))).

(** [x[:-1]] *)
Definition drop_last {A} (l : list A) : list A := take (length l - 1)%nat l.

(** [v[start:end]] for [0 <= start <= end], the only slices the loop takes. *)
Definition py_slice {A} (start end_ : nat) (v : list A) : list A :=
  take (end_ - start)%nat (drop start v).

(** [range(0, stop, step)]: a zero step is a [ValueError], a negative step
    gives the empty range. *)
Definition py_range (stop : nat) (step : Z) : result (list nat) :=
  if decide (step = 0) then Raise ValueError
  else if decide (step < 0) then Ok []
  else
    let b := Z.to_nat step in
    Ok ((λ k, k * b)%nat <$> seq 0 ((stop + b - 1) / b)%nat).

(** [t.view(rows, -1)] of a flat tensor: the row length is inferred, and
    the call fails when it cannot be. *)
Definition view_rows {A} (rows : nat) (t : list A) : result (list (list A)) :=
  if decide (rows = 0%nat) then Raise RuntimeError
  else if decide ((length t) `mod` rows = 0)%nat
       then Ok (reshape (replicate rows (length t / rows)%nat) t)
       else Raise RuntimeError.

(** ** The float arithmetic of the tensors

    [T] is the element type of the logits; its operations are those of
    [torch] in that dtype and of [math.exp]. *)

Class Scalar (T : Type) := {
  (** [0.0] *)
  fzero : T;
  (** [torch.sum] of one row: the reduction kernel of the library, whose
      order of additions and accumulator are its own *)
  fsum : list T → T;
  (** true division of a float by an [int64] count *)
  fdiv_int : T → Z → T;
  (** [-log_softmax(row)[c]]: the negative log-likelihood of class [c]
      under the logits [row], for [c] below the length of [row] *)
  nll : list T → nat → T;
  (** [math.exp], which raises [OverflowError] out of range *)
  py_exp : T → result T
}.

(** [CrossEntropyLoss().ignore_index] *)
Definition PAD_TOKEN_LABEL_ID : Z := -100.

Section Loss.
Context {T : Type} `{Scalar T}.

(** One position of [CrossEntropyLoss(reduction='none')]: an ignored
    target costs nothing, a target outside the classes is an error. *)
Definition cross_entropy_at (row : list T) (target : Z) : result T :=
  if decide (target = PAD_TOKEN_LABEL_ID) then Ok fzero
  else if decide (0 ≤ target < Z.of_nat (length row))
       then Ok (nll row (Z.to_nat target))
       else Raise IndexError.

(** [loss_fct(input, target)] with [input] of shape (N, C) and [target]
    of shape (N). *)
Definition loss_fct (input : list (list T)) (target : list Z)
  : result (list T) :=
  if decide (length input = length target)
  then mapM (λ p, cross_entropy_at p.1 p.2) (zip input target)
  else Raise ValueError.

(** [torch.sum(loss, -1)] *)
Definition sum_rows (loss : list (list T)) : list T :=
  fsum <$> loss.

(** [a / b] on one-dimensional tensors, with broadcasting. *)
Definition tensor_div (a : list T) (b : list Z) : result (list T) :=
  if decide (length a = length b) then Ok (zip_with fdiv_int a b)
  else match a, b with
       | [x], _ => Ok (fdiv_int x <$> b)
       | _, [n] => Ok ((λ x, fdiv_int x n) <$> a)
       | _, _ => Raise RuntimeError
       end.
End Loss.

(** ** The tokenizer

    [encode] is the text encoder of the pretrained tokenizer (special
    tokens included); the rest is what [transformers] documents for the
    keyword arguments [get_perplexity] passes: [truncation=True] cuts a
    sequence to [max_length] (to [model_max_length] when none is given),
    on [truncation_side], [padding=True] pads to the longest sequence of
    the call and [padding='max_length'] to [max_length], on
    [padding_side].  A call on no text at all fails in the batch encoder
    with an [IndexError]. *)

Inductive side := PadLeft | PadRight.
Inductive padding := Longest | MaxLength.

Record Tokenizer := {
  encode : string → list nat;
  (** [len(tokenizer)] *)
  vocab_len : nat;
  (** [None] when the tokenizer has no pad token *)
  pad_token_id : option nat;
  padding_side : side;
  (** the side tokens are removed from: [PadRight] keeps the first
      tokens of a sequence, [PadLeft] the last *)
  truncation_side : side;
  model_max_length : nat;
  (** whether the tokenizer also returns ["token_type_ids"] *)
  returns_token_type_ids : bool
}.

(** [tokenizer.add_special_tokens({'pad_token': "<<PAD>>"})]: the new
    token takes the next free id. *)
Definition add_pad_token (tk : Tokenizer) : Tokenizer :=
  {| encode := encode tk;
     vocab_len := S (vocab_len tk);
     pad_token_id := Some (vocab_len tk);
     padding_side := padding_side tk;
     truncation_side := truncation_side tk;
     model_max_length := model_max_length tk;
     returns_token_type_ids := returns_token_type_ids tk |}.

(** A sequence cut to [limit] tokens on the side [sd]. *)
Definition truncate {A} (sd : side) (limit : nat) (row : list A) : list A :=
  match sd with
  | PadRight => take limit row
  | PadLeft => drop (length row - limit) row
  end.

Definition pad_row (sd : side) (fill : Z) (width : nat) (row : list Z)
  : list Z :=
  match sd with
  | PadRight => row ++ replicate (width - length row) fill
  | PadLeft => replicate (width - length row) fill ++ row
  end.

(** [tokenizer(texts, max_length=..., truncation=True, padding=...,
    return_tensors='pt')] *)
Definition tokenizer_call (tk : Tokenizer) (texts : list string)
    (max_length : option nat) (pad : padding) : result kwargs :=
  match pad_token_id tk with
  | None => Raise ValueError
  | Some pad_id =>
    if decide (texts = []) then Raise IndexError else
    let limit := default (model_max_length tk) max_length in
    let seqs :=
      (λ s, truncate (truncation_side tk) limit (encode tk s)) <$> texts in
    let width := match pad with
                 | MaxLength => limit
                 | Longest => max_list (length <$> seqs)
                 end in
    let sd := padding_side tk in
    let fields : kwargs :=
      {[ "input_ids" :=
           (λ s, pad_row sd (Z.of_nat pad_id) width (Z.of_nat <$> s)) <$> seqs;
         "attention_mask" :=
           (λ s, pad_row sd 0 width (replicate (length s) 1)) <$> seqs ]} in
    Ok (if returns_token_type_ids tk
        then <["token_type_ids" := (λ _, replicate width 0) <$> seqs]> fields
        else fields)
  end.

(** ** The pretrained model *)

Inductive device := Cpu | Cuda.

Record PreTrainedModel (T : Type) := {
  (** rows of the token embedding, which is the number of logit columns *)
  embeddings : nat;
  (** [output['logits']] of the forward pass with that many embeddings,
      of shape (batch, sequence, vocabulary) *)
  forward : nat → kwargs → list (list (list T));
  model_device : device
}.
Arguments embeddings {T} _.
Arguments forward {T} _ _ _.
Arguments model_device {T} _.

Definition resize_token_embeddings {T} (m : PreTrainedModel T) (n : nat)
  : PreTrainedModel T :=
  {| embeddings := n; forward := forward m; model_device := model_device m |}.

Definition to_cuda {T} (m : PreTrainedModel T) : PreTrainedModel T :=
  {| embeddings := embeddings m; forward := forward m; model_device := Cuda |}.

(** [output['logits']] of [self.model] called on [batch_inputs] *)
Definition logits {T} (m : PreTrainedModel T) (inputs : kwargs)
  : list (list (list T)) :=
  forward m (embeddings m) inputs.

(** ** The scorer *)

Record LM (T : Type) := {
  tokenizer : Tokenizer;
  model : PreTrainedModel T;
  pad_token_initialized : bool;
  max_length : option nat;
  lm_device : device
}.
Arguments tokenizer {T} _.
Arguments model {T} _.
Arguments pad_token_initialized {T} _.
Arguments max_length {T} _.
Arguments lm_device {T} _.

(** [input_texts]: a string or a list of strings. *)
Inductive texts := Str (s : string) | Strs (l : list string).

(** [isinstance(input_texts, str)] *)
Definition is_str (input_texts : texts) : bool :=
  match input_texts with Str _ => true | Strs _ => false end.

(** [[input_texts] if single_input else input_texts] *)
Definition as_list (input_texts : texts) : list string :=
  match input_texts with Str s => [s] | Strs l => l end.

(** What [get_perplexity] returns: a value or a list of values. *)
Inductive value (T : Type) := Float (x : T) | Floats (l : list T).
Arguments Float {T} x.
Arguments Floats {T} l.

(** The tensors of one iteration of the loop, under the names the code
    binds them to ([loss] is bound twice: to the token losses, then to the
    per-sequence means). *)
Record iteration (T : Type) := {
  it_inputs : kwargs;
  it_logit : list (list (list T));
  it_label : list (list Z);
  it_shift_logits : list (list (list T));
  it_shift_label : list (list Z);
  it_valid_length : list Z;
  it_token_loss : list (list T);
  it_loss : list T
}.
Arguments it_inputs {T} _.
Arguments it_logit {T} _.
Arguments it_label {T} _.
Arguments it_shift_logits {T} _.
Arguments it_shift_label {T} _.
Arguments it_valid_length {T} _.
Arguments it_token_loss {T} _.
Arguments it_loss {T} _.

(** The state of [get_perplexity] between two iterations.  [batch_inputs]
    and [output] are [None] while unbound; [history] is a ghost field that
    keeps the tensors of every iteration so far, [it_inputs] as the
    forward pass received them. *)
Record frame (T : Type) := {
  model_inputs : kwargs;
  loss_list : list T;
  batch_inputs : option kwargs;
  output : option (list (list (list T)));
  history : list (iteration T)
}.
Arguments model_inputs {T} _.
Arguments loss_list {T} _.
Arguments batch_inputs {T} _.
Arguments output {T} _.
Arguments history {T} _.

(** [label[label == p] = PAD_TOKEN_LABEL_ID] on one id. *)
Definition mask_id (p : nat) (t : Z) : Z :=
  if decide (t = Z.of_nat p) then PAD_TOKEN_LABEL_ID else t.

(** [label[label == pad_token_id] = PAD_TOKEN_LABEL_ID]; comparing with
    [None] selects nothing. *)
Definition mask_pad (pad_id : option nat) (label : list (list Z))
  : list (list Z) :=
  match pad_id with
  | Some p => (λ row : list Z, mask_id p <$> row) <$> label
  | None => label
  end.

(** [(row != PAD_TOKEN_LABEL_ID).sum()] *)
Definition count_valid (row : list Z) : Z :=
  Z.of_nat (length (filter (λ t, t ≠ PAD_TOKEN_LABEL_ID) row)).

(** The rows [start, start + len(rows)) of [v] overwritten in place. *)
Definition write_rows {A} (start : nat) (rows v : list A) : list A :=
  take start v ++ rows ++ drop (start + length rows) v.

Fixpoint foldlM {A B} (f : A → B → result A) (a : A) (l : list B)
  : result A :=
  match l with
  | [] => Ok a
  | x :: l => a' ← f a x; foldlM f a' l
  end.

Section Scorer.
Context {T : Type} `{Scalar T}.

(** [LM.__init__].  [num_gpus] is the resolved number of GPUs and
    [device_map] tells whether a device map placed the model. *)
Definition LM_init (tk : Tokenizer) (m : PreTrainedModel T)
    (max_length : option nat) (num_gpus : nat) (device_map : bool)
  : result (LM T) :=
  let '(tk, m, initialized) :=
    match pad_token_id tk with
    | None =>
        let tk' := add_pad_token tk in
        (tk', resize_token_embeddings m (vocab_len tk'), true)
    | Some _ => (tk, m, false)
    end in
  max_length ← match max_length with
               | None => Ok None
               | Some n =>
                   (* [assert self.max_length <= model_max_length] *)
                   if decide (n ≤ model_max_length tk)%nat
                   then Ok (Some n) else Raise AssertionError
               end;
  let m := if device_map then m
           else if decide (1 ≤ num_gpus)%nat then to_cuda m else m in
  Ok {| tokenizer := tk; model := m;
        pad_token_initialized := initialized;
        max_length := max_length;
        lm_device := model_device m |}.

(** [logit = output['logits']], without its last vocabulary column when
    the pad token was added by the constructor. *)
Definition batch_logit (lm : LM T) (out : list (list (list T)))
  : list (list (list T)) :=
  if pad_token_initialized lm
  then (λ seq_ : list (list T), drop_last <$> seq_) <$> out
  else out.

(** The token losses: [loss_fct] on the flattened tensors, viewed again
    as one row per sequence of the output. *)
Definition token_loss (rows : nat) (shift_logits : list (list (list T)))
    (shift_label : list (list Z)) : result (list (list T)) :=
  loss ← loss_fct (mjoin shift_logits) (mjoin shift_label);
  view_rows rows loss.

(** One iteration of the loop over [range(0, len(input_texts), batch)]. *)
Definition batch_step (lm : LM T) (batch : nat) (forced_reset : bool)
    (st : frame T) (start : nat) : result (frame T) :=
  let end_ := (start + batch)%nat in
  (* [v[start:end].to(self.device)] *)
  let inputs : kwargs := py_slice start end_ <$> model_inputs st in
  let out := logits (model lm) inputs in
  let logit := batch_logit lm out in
  ids ← from_option Ok (Raise KeyError) (inputs !! "input_ids");
  let label := mask_pad (pad_token_id (tokenizer lm)) ids in
  (* the assignment into [label] writes into [batch_inputs] and, on the
     CPU, where [.to] returns its argument, into [model_inputs] *)
  let inputs' : kwargs := <["input_ids" := label]> inputs in
  let stored : kwargs :=
    match lm_device lm with
    | Cpu => alter (write_rows start label) "input_ids" (model_inputs st)
    | Cuda => model_inputs st
    end in
  let shift_logits := drop_last <$> logit in
  let shift_label := tail <$> label in
  let valid_length := count_valid <$> shift_label in
  tloss ← token_loss (length out) shift_logits shift_label;
  loss ← tensor_div (sum_rows tloss) valid_length;
  Ok {| model_inputs := stored;
        loss_list := loss_list st ++ loss;
        batch_inputs := if forced_reset then None else Some inputs';
        output := if forced_reset then None else Some out;
        history := history st ++
          [ {| it_inputs := inputs; it_logit := logit; it_label := label;
               it_shift_logits := shift_logits;
               it_shift_label := shift_label;
               it_valid_length := valid_length;
               it_token_loss := tloss; it_loss := loss |} ] |}.

(** The tokenization of all the texts, before the loop. *)
Definition encode_inputs (lm : LM T) (input_texts : list string)
  : result kwargs :=
  fields ← match max_length lm with
           | Some n => tokenizer_call (tokenizer lm) input_texts
                         (Some n) MaxLength
           | None => tokenizer_call (tokenizer lm) input_texts
                         None Longest
           end;
  (* [if 'token_type_ids' in model_inputs: model_inputs.pop(...)] *)
  Ok (delete "token_type_ids" fields).

(** [get_perplexity] up to the end of the loop. *)
Definition run_batches (lm : LM T) (input_texts : list string)
    (batch : option Z) (forced_reset : bool) : result (frame T) :=
  let batch := default (Z.of_nat (length input_texts)) batch in
  fields ← encode_inputs lm input_texts;
  starts ← py_range (length input_texts) batch;
  foldlM (batch_step lm (Z.to_nat batch) forced_reset)
    {| model_inputs := fields; loss_list := [];
       batch_inputs := None; output := None; history := [] |}
    starts.

(** [ppl[0] if single_input else ppl] *)
Definition pick (single_input : bool) (ppl : list T) : result (value T) :=
  if single_input
  then match ppl with x :: _ => Ok (Float x) | [] => Raise IndexError end
  else Ok (Floats ppl).

Definition get_perplexity (lm : LM T) (input_texts : texts)
    (batch : option Z) (forced_reset : bool) : result (value T) :=
  let single_input := is_str input_texts in
  let input_texts := as_list input_texts in
  st ← run_batches lm input_texts batch forced_reset;
  ppl ← mapM py_exp (loss_list st);
  pick single_input ppl.
End Scorer.

(** ** Attribute lookup on a scorer

    An instance of [LM] answers the names its constructor binds on
    [self], the functions the body of the class defines, and what every
    object inherits from [object], the only base of [LM]; any other name
    is an [AttributeError]. *)
Inductive attribute := Field | Method | Inherited.

(** The targets of [self.x = ...] in [__init__]. *)
Definition LM_fields : list string :=
  ["tokenizer"; "config"; "model"; "pad_token_initialized"; "max_length";
   "loss_fct"; "device"].

(** The [def]s of the class body. *)
Definition LM_methods : list string := ["__init__"; "get_perplexity"].

(** The attributes of an instance of a class that derives from [object]
    only. *)
Definition object_attributes : list string :=
  ["__class__"; "__delattr__"; "__dict__"; "__dir__"; "__doc__"; "__eq__";
   "__format__"; "__ge__"; "__getattribute__"; "__getstate__"; "__gt__";
   "__hash__"; "__init__"; "__init_subclass__"; "__le__"; "__lt__";
   "__module__"; "__ne__"; "__new__"; "__reduce__"; "__reduce_ex__";
   "__repr__"; "__setattr__"; "__sizeof__"; "__str__"; "__subclasshook__";
   "__weakref__"].

Definition LM_getattr (name : string) : result attribute :=
  if decide (name ∈ LM_fields) then Ok Field
  else if decide (name ∈ LM_methods) then Ok Method
  else if decide (name ∈ object_attributes) then Ok Inherited
  else Raise AttributeError.

(** ** Derived notions used by the statements *)

Section Views.
Context {T : Type} `{Scalar T}.

(** The loss of a position whose target is ignored or a class of the
    row. *)
Definition ce_val (row : list T) (t : Z) : T :=
  if decide (t = PAD_TOKEN_LABEL_ID) then fzero else nll row (Z.to_nat t).

Definition scorable (row : list T) (t : Z) : Prop :=
  t = PAD_TOKEN_LABEL_ID ∨ 0 ≤ t < Z.of_nat (length row).

(** The tensors of an iteration as functions of the batch the forward
    pass receives, when no step of the iteration raises. *)
Definition iteration_of (lm : LM T) (inputs : kwargs) : iteration T :=
  let logit := batch_logit lm (logits (model lm) inputs) in
  let label := mask_pad (pad_token_id (tokenizer lm))
                 (default [] (inputs !! "input_ids")) in
  let shift_logits := drop_last <$> logit in
  let shift_label := tail <$> label in
  let valid_length := count_valid <$> shift_label in
  let tloss := zip_with (zip_with ce_val) shift_logits shift_label in
  {| it_inputs := inputs; it_logit := logit; it_label := label;
     it_shift_logits := shift_logits; it_shift_label := shift_label;
     it_valid_length := valid_length; it_token_loss := tloss;
     it_loss := zip_with fdiv_int (sum_rows tloss) valid_length |}.

(** An id of the input tensor: the pad id or a class of the logits. *)
Definition token_ok (p c : nat) (t : Z) : Prop :=
  t = Z.of_nat p ∨ 0 ≤ t < Z.of_nat c.

(** A scorer with pad id [p] whose logits have [c] columns once
    [batch_logit] has trimmed them. *)
Record scorer_ok (lm : LM T) (p c : nat) : Prop := {
  ok_pad : pad_token_id (tokenizer lm) = Some p;
  ok_shape : ∀ (kw : kwargs) ids, kw !! "input_ids" = Some ids →
    Forall2 (λ (o : list (list T)) (r : list Z),
               length o = length r ∧ Forall (λ col, length col = c) o)
      (batch_logit lm (logits (model lm) kw)) ids
}.

(** What the scorer needs of the pretrained tokenizer and model: the
    encoder stays inside the vocabulary, the model has an embedding for
    every token, and the logits have one row per sequence, one position
    per input position and one column per embedding. *)
Record pretrained_ok (tk : Tokenizer) (m : PreTrainedModel T) : Prop := {
  tokens_in_vocab :
    ∀ s, Forall (λ t, (t < vocab_len tk)%nat) (encode tk s);
  vocab_embedded : (vocab_len tk ≤ embeddings m)%nat;
  logits_shape : ∀ v (kw : kwargs) ids, kw !! "input_ids" = Some ids →
    Forall2 (λ (o : list (list T)) (r : list Z),
               length o = length r ∧ Forall (λ col, length col = v) o)
      (forward m v kw) ids
}.

(** The forward pass treats the sequences of a batch independently:
    on a slice of the batch it returns that slice of the logits. *)
Definition slice_invariant (m : PreTrainedModel T) : Prop :=
  ∀ v (kw : kwargs) (s e : nat),
    forward m v (py_slice s e <$> kw) = py_slice s e (forward m v kw).

Definition seq_limit (lm : LM T) : nat :=
  default (model_max_length (tokenizer lm)) (max_length lm).

(** The token ids of a text after truncation. *)
Definition truncated (lm : LM T) (s : string) : list nat :=
  truncate (truncation_side (tokenizer lm)) (seq_limit lm)
    (encode (tokenizer lm) s).

(** The common length of the padded sequences. *)
Definition pad_width (lm : LM T) (input_texts : list string) : nat :=
  match max_length lm with
  | Some n => n
  | None => max_list (length <$> (truncated lm <$> input_texts))
  end.

Definition input_ids_of (lm : LM T) (p : nat) (input_texts : list string)
  : list (list Z) :=
  (λ s, pad_row (padding_side (tokenizer lm)) (Z.of_nat p)
          (pad_width lm input_texts) (Z.of_nat <$> truncated lm s))
    <$> input_texts.

Definition attention_mask_of (lm : LM T) (input_texts : list string)
  : list (list Z) :=
  (λ s, pad_row (padding_side (tokenizer lm)) 0
          (pad_width lm input_texts)
          (replicate (length (truncated lm s)) 1))
    <$> input_texts.

(** The fields the loop starts from: what the tokenizer returns, without
    ["token_type_ids"]. *)
Definition fields_of (lm : LM T) (p : nat) (input_texts : list string)
  : kwargs :=
  {[ "input_ids" := input_ids_of lm p input_texts;
     "attention_mask" := attention_mask_of lm input_texts ]}.

(** The start indices of [range(0, n, b)] for a positive [b]. *)
Definition starts (n b : nat) : list nat :=
  (λ k, k * b)%nat <$> seq 0 ((n + b - 1) / b)%nat.

(** There is a text to score and the batch size is positive. *)
Definition positive_batch (n : nat) (batch : option Z) : Prop :=
  (1 ≤ n)%nat ∧ 1 ≤ default (Z.of_nat n) batch.

Definition batch_size (n : nat) (batch : option Z) : nat :=
  Z.to_nat (default (Z.of_nat n) batch).

(** The reduction does not see a summand that is [fzero]: the sum of a
    row is the sum of the row without it.  This holds of exact
    arithmetic; a float kernel meets it up to rounding only. *)
Definition zero_neutral : Prop :=
  ∀ l k : list T, fsum (l ++ fzero :: k) = fsum (l ++ k).

(** The mean negative log-likelihood of a sequence, in the words of the
    specification: the losses of the positions whose label is not
    [ignored] are summed and divided by the number of those positions. *)
Definition mean_nll (ignored : Z) (shift_logits : list (list T))
    (shift_label : list Z) : T :=
  let valid :=
    filter (λ p, p.2 ≠ ignored) (zip shift_logits shift_label) in
  fdiv_int (fsum ((λ p, nll p.1 (Z.to_nat p.2)) <$> valid))
    (Z.of_nat (length valid)).

(** The same mean as the code computes it: the sum runs over all the
    positions, the ignored ones with loss [fzero]. *)
Definition row_loss (shift_logits : list (list T)) (shift_label : list Z)
  : T :=
  fdiv_int (fsum (zip_with ce_val shift_logits shift_label))
    (count_valid shift_label).

(** The shifted logits and labels of every sequence of a run, in the
    order of the iterations. *)
Definition scored_rows (st : frame T) : list (list (list T) * list Z) :=
  mjoin ((λ it, zip (it_shift_logits it) (it_shift_label it))
           <$> history st).

(** The label sequence of a text: its padded token ids with the pad id
    replaced. *)
Definition label_of_text (lm : LM T) (p : nat) (input_texts : list string)
    (s : string) : list Z :=
  mask_id p
    <$> pad_row (padding_side (tokenizer lm)) (Z.of_nat p)
          (pad_width lm input_texts) (Z.of_nat <$> truncated lm s).

(** An iteration on a well-formed batch of sequences of length [w]. *)
Definition batch_ok (lm : LM T) (p c w : nat) (it : iteration T) : Prop :=
  ∃ ids, it = iteration_of lm (it_inputs it)
    ∧ it_inputs it !! "input_ids" = Some ids
    ∧ ids ≠ []
    ∧ Forall (λ r, length r = w) ids
    ∧ Forall (Forall (token_ok p c)) ids.

(** Two frames hold the same data: they differ at most in the bindings
    of [batch_inputs] and [output]. *)
Definition same_data (st st' : frame T) : Prop :=
  model_inputs st = model_inputs st' ∧ loss_list st = loss_list st'
  ∧ history st = history st'.

(** Two computations end alike: with the same exception, or with
    related values. *)
Definition result_rel {A} (R : A → A → Prop) (r r' : result A) : Prop :=
  match r, r' with
  | Ok a, Ok a' => R a a'
  | Raise e, Raise e' => e = e'
  | _, _ => False
  end.

(** The claim that each forward batch is padded to the longest sequence
    of that batch, for the run that ends in [st] with batches of [b]
    texts. *)
Definition padded_per_batch (lm : LM T) (input_texts : list string)
    (b : nat) (st : frame T) : Prop :=
  ∀ k it ids row,
    history st !! k = Some it →
    it_inputs it !! "input_ids" = Some ids → row ∈ ids →
    length row =
      max_list (length <$>
        (truncated lm <$> py_slice (k * b) (k * b + b) input_texts)).
End Views.

(** ** The value of one text

    What [get_perplexity] computes for the text at index [i] of the
    input, written from the tokenizer and the forward pass. *)

Section PerText.
Context {T : Type} `{Scalar T}.

(** The start of the forward batch that holds the text at index [i], for
    batches of [b] texts. *)
Definition batch_start (b i : nat) : nat := (i / b * b)%nat.

(** What the forward pass of that batch receives: the rows
    [[start, start + b)] of the fields the tokenizer returned for the
    whole input. *)
Definition batch_of (lm : LM T) (p : nat) (input_texts : list string)
    (b i : nat) : kwargs :=
  py_slice (batch_start b i) (batch_start b i + b)
    <$> fields_of lm p input_texts.

(** The logits of the text at index [i]: its row of [output['logits']] of
    the forward pass on its batch. *)
Definition text_output (lm : LM T) (p : nat) (input_texts : list string)
    (b i : nat) : list (list T) :=
  default [] (logits (model lm) (batch_of lm p input_texts b i)
                !! (i `mod` b)%nat).

(** The same row of [logit], after [batch_logit]. *)
Definition text_logits (lm : LM T) (p : nat) (input_texts : list string)
    (b i : nat) : list (list T) :=
  default []
    (batch_logit lm (logits (model lm) (batch_of lm p input_texts b i))
       !! (i `mod` b)%nat).

(** The row of ["input_ids"] of a text: its truncated token ids, padded
    with the pad id. *)
Definition ids_of_text (lm : LM T) (p : nat) (input_texts : list string)
    (s : string) : list Z :=
  pad_row (padding_side (tokenizer lm)) (Z.of_nat p)
    (pad_width lm input_texts) (Z.of_nat <$> truncated lm s).

(** The loss of the text [s] at index [i]. *)
Definition text_loss (lm : LM T) (p : nat) (input_texts : list string)
    (b i : nat) (s : string) : T :=
  row_loss (drop_last (text_logits lm p input_texts b i))
    (tail (label_of_text lm p input_texts s)).
End PerText.

(** ** IEEE 754 arithmetic

    The scalar operations on binary floats of precision [prec] and
    exponent bound [emax]; [nll_], [exp_] and [sum_] stand for the kernels
    the standard library has no model of.  [math.exp] maps NaN to NaN,
    and a sum whose summands are all [+0.0] is [+0.0] in whatever order
    they are added. *)

Section IEEE.
Variables (prec emax : Z).
Variable nll_ : list spec_float → nat → spec_float.
Variable exp_ : spec_float → result spec_float.
Variable sum_ : list spec_float → spec_float.

Definition of_int (n : Z) : spec_float :=
  binary_normalize prec emax n 0 false.

Definition is_pos_zero (x : spec_float) : bool :=
  match x with S754_zero false => true | _ => false end.

Definition ieee_scalar : Scalar spec_float :=
  {| fzero := S754_zero false;
     fsum l := if forallb is_pos_zero l then S754_zero false else sum_ l;
     fdiv_int x n := SFdiv prec emax x (of_int n);
     nll := nll_;
     py_exp x := match x with S754_nan => Ok S754_nan | _ => exp_ x end |}.
End IEEE.

(** ** A test double

    A three-letter tokenizer, a model whose logits name the position they
    belong to, and symbolic scalars that record the arithmetic done on
    them. *)

Module Demo.
#[warnings="-register-all"]
Inductive sym :=
  | SZero
  | SSum (l : list sym)
  | SDiv (a : sym) (n : Z)
  | SNll (row : list sym) (c : nat)
  | SExp (a : sym)
  | SLogit (row : list Z) (pos col : nat).

Definition is_zero (a : sym) : bool :=
  match a with SZero => true | _ => false end.

Global Instance sym_scalar : Scalar sym :=
  {| fzero := SZero;
     fsum l := SSum (filter (λ a, is_zero a = false) l);
     fdiv_int := SDiv;
     nll := SNll;
     py_exp a := Ok (SExp a) |}.

Definition tk (pad : option nat) (sd : side) (tt : bool) : Tokenizer :=
  {| encode s :=
       (λ a, Ascii.nat_of_ascii a `mod` 3)%nat
         <$> String.list_ascii_of_string s;
     vocab_len := 3;
     pad_token_id := pad;
     padding_side := sd;
     truncation_side := PadRight;
     model_max_length := 4;
     returns_token_type_ids := tt |}.

(** A model whose forward pass computes the logit of a position from the
    sequence it belongs to. *)
Definition net_of {T} (logit : list Z → nat → nat → T) : PreTrainedModel T :=
  {| embeddings := 3;
     forward v kw :=
       match kw !! "input_ids" with
       | Some ids =>
           (λ row : list Z, imap (λ i _, logit row i <$> seq 0 v) row)
             <$> ids
       | None => []
       end;
     model_device := Cpu |}.

(** [LM(model)] for a tokenizer without pad token, on the CPU. *)
Definition lm_of {T} (logit : list Z → nat → nat → T) : LM T :=
  {| tokenizer := add_pad_token (tk None PadRight true);
     model := resize_token_embeddings (net_of logit) 4;
     pad_token_initialized := true;
     max_length := None;
     lm_device := Cpu |}.

(** The same with a tokenizer that pads on the left. *)
Definition left_lm_of {T} (logit : list Z → nat → nat → T) : LM T :=
  {| tokenizer := add_pad_token (tk None PadLeft true);
     model := resize_token_embeddings (net_of logit) 4;
     pad_token_initialized := true;
     max_length := None;
     lm_device := Cpu |}.

Definition net : PreTrainedModel sym := net_of SLogit.
Definition lm : LM sym := lm_of SLogit.

(** The same scorer on binary32 floats, with constant logits. *)
Definition zero_logit (row : list Z) (pos col : nat) : spec_float :=
  S754_zero false.
Definition float_scalar : Scalar spec_float :=
  ieee_scalar 24 128 (λ _ _, S754_zero false) Ok
    (foldl (SFadd 24 128) (S754_zero false)).
Definition float_net : PreTrainedModel spec_float := net_of zero_logit.
Definition float_lm : LM spec_float := lm_of zero_logit.
End Demo.

(** ** The keyword arguments of the loaders

    [LM.__init__] collects the keyword arguments of the three
    [from_pretrained] calls in one dict.  [online] is the answer of
    [internet_connection()]; [D] is the type of a torch dtype and [C] the
    type of the configuration [AutoConfig.from_pretrained] returns. *)

Section Loaders.
Context {D C : Type}.

Inductive pyval :=
  | PyBool (b : bool)
  | PyStr (s : string)
  | PyDtype (d : D)
  | PyConfig (c : C).

(** [params] at the calls of [AutoTokenizer.from_pretrained] and
    [AutoConfig.from_pretrained]. *)
Definition tokenizer_params (online use_auth_token trust_remote_code : bool)
    (offload_folder hf_cache_dir : option string) : gmap string pyval :=
  let params : gmap string pyval :=
    {[ "local_files_only" := PyBool (negb online);
       "use_auth_token" := PyBool use_auth_token;
       "trust_remote_code" := PyBool trust_remote_code ]} in
  let params := match hf_cache_dir with
                | Some d => <["cache_dir" := PyStr d]> params
                | None => params
                end in
  match offload_folder with
  | Some d => <["offload_folder" := PyStr d]> params
  | None => params
  end.

(** [params] at the call of [AutoModelForCausalLM.from_pretrained], from
    its value at the earlier calls. *)
Definition model_params (params : gmap string pyval) (config : C)
    (torch_dtype : option D) (device_map : option string)
    (low_cpu_mem_usage : bool) : gmap string pyval :=
  let params : gmap string pyval :=
    {[ "config" := PyConfig config;
       "low_cpu_mem_usage" := PyBool low_cpu_mem_usage ]} ∪ params in
  let params := match torch_dtype with
                | Some d => <["torch_dtype" := PyDtype d]> params
                | None => params
                end in
  match device_map with
  | Some d => <["device_map" := PyStr d]> params
  | None => params
  end.
End Loaders.
Arguments pyval : clear implicits.

(** ** Notions used by the further properties *)

Section Relations.
Context {T : Type}.


End Relations.

(** The number of positions of a sequence of [len] tokens, padded to
    [width], that are scored when the pad id is none of its tokens. *)
Definition scored_positions (sd : side) (width len : nat) : nat :=
  match sd with
  | PadRight => len - 1
  | PadLeft => if decide (len < width)%nat then len else (len - 1)%nat
  end.

(** * Proofs *)

(** The bind of a computation that returned. *)
Ltac bind_ok :=
  repeat match goal with
         | |- context [Ok ?x ≫= ?f] => change (Ok x ≫= f) with (f x)
         end;
  cbv beta.

(** ** Lists, the result monad and the tensor operations *)

Lemma mapM_cons {A B} (f : A → result B) (x : A) (l : list A) :
  mapM f (x :: l) = y ← f x; k ← mapM f l; Ok (y :: k).
Proof. done. Qed.

Lemma mapM_ok {A B} (f : A → result B) (g : A → B) (l : list A) :
  Forall (λ x, f x = Ok (g x)) l → mapM f l = Ok (g <$> l).
Proof.
  induction 1 as [|x l Hx _ IH]; [done|].
  by rewrite mapM_cons, Hx, IH.
Qed.

Lemma reshape_mjoin {A} (n : nat) (ls : list (list A)) :
  Forall (λ r, length r = n) ls →
  reshape (replicate (length ls) n) (mjoin ls) = ls.
Proof.
  induction 1 as [|r ls Hr _ IH]; [done|].
  change (mjoin (r :: ls)) with (r ++ mjoin ls).
  change (replicate (length (r :: ls)) n)
    with (n :: replicate (length ls) n).
  change (reshape (n :: ?szs) ?l) with (take n l :: reshape szs (drop n l)).
  by rewrite take_app_length', drop_app_length', IH.
Qed.

Lemma length_mjoin_rect {A} (n : nat) (ls : list (list A)) :
  Forall (λ r, length r = n) ls → length (mjoin ls) = (length ls * n)%nat.
Proof.
  induction 1 as [|r ls Hr _ IH]; [done|].
  change (mjoin (r :: ls)) with (r ++ mjoin ls).
  rewrite length_app, IH. cbn. lia.
Qed.

Lemma view_rows_mjoin {A} (n : nat) (ls : list (list A)) :
  ls ≠ [] → Forall (λ r, length r = n) ls →
  view_rows (length ls) (mjoin ls) = Ok ls.
Proof.
  intros Hne Hrect. unfold view_rows.
  rewrite (length_mjoin_rect n) by done.
  destruct (decide (length ls = 0%nat)) as [H0|H0].
  { destruct ls; done. }
  rewrite (Nat.mul_comm (length ls) n), Nat.Div0.mod_mul, Nat.div_mul by done.
  rewrite decide_True by done. by rewrite reshape_mjoin.
Qed.

Section Lemmas.
Context {T : Type} `{Scalar T}.

Lemma cross_entropy_at_ok row t :
  scorable row t → cross_entropy_at row t = Ok (ce_val row t).
Proof.
  unfold cross_entropy_at, ce_val, scorable. intros Hs.
  destruct (decide (t = PAD_TOKEN_LABEL_ID)); [done|].
  rewrite decide_True; [done|]. by destruct Hs.
Qed.

Lemma loss_fct_ok input target :
  Forall2 (@scorable T) input target →
  loss_fct input target = Ok (zip_with ce_val input target).
Proof.
  intros HF. unfold loss_fct.
  rewrite decide_True by (by eapply Forall2_length).
  rewrite (mapM_ok _ (λ p, ce_val p.1 p.2)).
  - rewrite (zip_with_zip ce_val). f_equal. apply list_fmap_ext.
    by intros ? [??].
  - induction HF; constructor; [by apply cross_entropy_at_ok | done].
Qed.

Lemma zip_with_mjoin {A B C} (f : A → B → C) (ls : list (list A))
    (ks : list (list B)) :
  Forall2 (λ l k, length l = length k) ls ks →
  zip_with f (mjoin ls) (mjoin ks) = mjoin (zip_with (zip_with f) ls ks).
Proof.
  induction 1 as [|l k ls ks Hlk _ IH]; [done|].
  change (mjoin (l :: ls)) with (l ++ mjoin ls).
  change (mjoin (k :: ks)) with (k ++ mjoin ks).
  rewrite zip_with_app by done. by rewrite IH.
Qed.

Lemma token_loss_ok (n : nat) (shift_logits : list (list (list T)))
    (shift_label : list (list Z)) :
  shift_logits ≠ [] →
  Forall2 (Forall2 (@scorable T)) shift_logits shift_label →
  Forall (λ r, length r = n) shift_label →
  token_loss (length shift_logits) shift_logits shift_label
  = Ok (zip_with (zip_with ce_val) shift_logits shift_label).
Proof.
  intros Hne HF Hrect. unfold token_loss.
  rewrite loss_fct_ok by (by apply Forall2_join).
  cbn. rewrite zip_with_mjoin.
  2:{ eapply Forall2_impl; [done|]. intros ??. apply Forall2_length. }
  assert (length shift_logits
          = length (zip_with (zip_with ce_val) shift_logits shift_label))
    as ->.
  { rewrite length_zip_with_l_eq; [done|]. by eapply Forall2_length. }
  apply (view_rows_mjoin n).
  - destruct HF; [done|]. done.
  - clear Hne. induction HF as [|l k ls ks Hlk _ IH]; [done|].
    inversion Hrect; subst. cbn. constructor; [|by apply IH].
    rewrite length_zip_with_l_eq; by apply Forall2_length in Hlk.
Qed.

Lemma Forall2_of_Forall {A B} (P : A → Prop) (Q : B → Prop) l k :
  length l = length k → Forall P l → Forall Q k →
  Forall2 (λ x y, P x ∧ Q y) l k.
Proof.
  intros Hlen HP. revert k Hlen.
  induction HP as [|x l Hx _ IH]; intros [|y k] Hlen HQ; try done.
  inversion HQ; subst. constructor; [done|]. apply IH; [|done].
  by injection Hlen.
Qed.

Lemma length_drop_last {A} (l : list A) :
  length (drop_last l) = (length l - 1)%nat.
Proof. unfold drop_last. rewrite length_take. lia. Qed.

Lemma length_tail {A} (l : list A) : length (tail l) = (length l - 1)%nat.
Proof. destruct l; cbn; lia. Qed.

Lemma Forall_drop_last {A} (P : A → Prop) l :
  Forall P l → Forall P (drop_last l).
Proof. apply Forall_take. Qed.

Lemma Forall_tail' {A} (P : A → Prop) l : Forall P l → Forall P (tail l).
Proof. destruct 1; [done|]. done. Qed.

Lemma mask_pad_rows p (ids : list (list Z)) c :
  Forall (Forall (token_ok p c)) ids →
  Forall (Forall (λ t, t = PAD_TOKEN_LABEL_ID ∨ 0 ≤ t < Z.of_nat c))
    (mask_pad (Some p) ids).
Proof.
  intros HF. unfold mask_pad. apply Forall_fmap.
  eapply Forall_impl; [done|]. intros row Hrow. cbn.
  apply Forall_fmap. eapply Forall_impl; [done|]. intros t Ht.
  unfold compose, mask_id.
  destruct (decide (t = Z.of_nat p)); [by left|].
  destruct Ht; [done|by right].
Qed.

Lemma mask_pad_lengths p (ids : list (list Z)) :
  Forall2 (λ r r', length r = length r') (mask_pad p ids) ids.
Proof.
  destruct p as [p|]; cbn.
  - apply Forall2_fmap_l, Forall_Forall2_diag, Forall_forall.
    intros r _. apply length_fmap.
  - by apply Forall_Forall2_diag, Forall_forall.
Qed.

Lemma shifted_scorable (lm : LM T) p c (kw : kwargs) ids :
  scorer_ok lm p c → kw !! "input_ids" = Some ids →
  Forall (Forall (token_ok p c)) ids →
  Forall2 (Forall2 (@scorable T))
    (drop_last <$> batch_logit lm (logits (model lm) kw))
    (tail <$> mask_pad (Some p) ids).
Proof.
  intros [Hpad Hshape] Hkw Htok.
  specialize (Hshape kw ids Hkw). clear Hkw.
  apply mask_pad_rows in Htok.
  pose proof (mask_pad_lengths (Some p) ids) as Hlen.
  revert Htok Hlen. generalize (mask_pad (Some p) ids) as label.
  induction Hshape as [|o r out ids' [Hor Hcols] _ IH];
    intros label Htok Hlen.
  { inversion Hlen; subst. constructor. }
  inversion Hlen as [|lb ? label' ? Hlb Hlen']; subst.
  inversion Htok; subst.
  rewrite !fmap_cons. constructor; [|by apply IH].
  eapply Forall2_impl.
  - apply (Forall2_of_Forall (λ col, length col = c)
             (λ t, t = PAD_TOKEN_LABEL_ID ∨ 0 ≤ t < Z.of_nat c)).
    + rewrite length_drop_last, length_tail. congruence.
    + by apply Forall_drop_last.
    + by apply Forall_tail'.
  - intros col t [Hcol Ht]. unfold scorable. by rewrite Hcol.
Qed.

Lemma batch_step_ok (lm : LM T) p c b fr st start ids w :
  scorer_ok lm p c →
  (py_slice start (start + b) <$> model_inputs st : kwargs) !! "input_ids"
  = Some ids →
  ids ≠ [] →
  Forall (λ r, length r = w) ids →
  Forall (Forall (token_ok p c)) ids →
  let inputs : kwargs := py_slice start (start + b) <$> model_inputs st in
  let it := iteration_of lm inputs in
  batch_step lm b fr st start =
  Ok {| model_inputs :=
          match lm_device lm with
          | Cpu => alter (write_rows start (it_label it)) "input_ids"
                     (model_inputs st)
          | Cuda => model_inputs st
          end;
        loss_list := loss_list st ++ it_loss it;
        batch_inputs :=
          if fr then None else Some (<["input_ids" := it_label it]> inputs);
        output := if fr then None else Some (logits (model lm) inputs);
        history := history st ++ [it] |}.
Proof.
  intros Hok Hids Hne Hrect Htok inputs it.
  pose proof (shifted_scorable lm p c inputs ids Hok Hids Htok) as Hsc.
  destruct Hok as [Hpad Hshape].
  specialize (Hshape inputs ids Hids).
  change (inputs !! "input_ids" = Some ids) in Hids.
  unfold batch_step. fold inputs. rewrite Hids. cbn [from_option].
  bind_ok.
  rewrite Hpad in *.
  assert (length (logits (model lm) inputs)
          = length (drop_last <$> batch_logit lm (logits (model lm) inputs)))
    as Hlen.
  { rewrite length_fmap. unfold batch_logit.
    destruct (pad_token_initialized lm); [by rewrite length_fmap|done]. }
  rewrite Hlen.
  rewrite (token_loss_ok (w - 1)); [| |done|].
  2:{ intros Hnil. apply (f_equal length) in Hnil.
      rewrite length_fmap, (Forall2_length _ _ _ Hshape) in Hnil.
      by destruct ids. }
  2:{ apply Forall_fmap. 
      pose proof (mask_pad_lengths (Some p) ids) as Hl.
      clear -Hl Hrect. induction Hl as [|???? Hxy]; [done|].
      inversion Hrect; subst. constructor; [|by auto].
      cbn. rewrite length_tail. congruence. }
  bind_ok.
  unfold tensor_div. rewrite decide_True.
  2:{ pose proof (Forall2_length _ _ _ (mask_pad_lengths (Some p) ids)) as Hl.
      pose proof (Forall2_length _ _ _ Hshape) as Hl'.
      unfold sum_rows. rewrite !length_fmap, length_zip_with_l_eq;
        rewrite !length_fmap; congruence. }
  subst it. unfold iteration_of. fold inputs. rewrite Hids, Hpad. done.
Qed.

Lemma drop_write_rows {A} (start n : nat) (rows v : list A) :
  (length rows ≤ n)%nat → (start ≤ length v)%nat →
  drop (start + n) (write_rows start rows v) = drop (start + n) v.
Proof.
  intros Hn Hs. unfold write_rows.
  rewrite drop_app, length_take, (drop_ge (take start v))
    by (rewrite length_take; lia).
  rewrite Nat.min_l by done. cbn [app].
  replace (start + n - start)%nat with n by lia.
  rewrite drop_app, (drop_ge rows) by done. cbn [app].
  rewrite drop_drop. f_equal. lia.
Qed.

Lemma option_drop_more {A} (o o' : option (list A)) (n k : nat) :
  drop n <$> o = drop n <$> o' → drop (n + k) <$> o = drop (n + k) <$> o'.
Proof.
  destruct o, o'; cbn; intros [=]; [|done]. f_equal.
  rewrite <- !drop_drop. congruence.
Qed.

Lemma loop_ok (lm : LM T) p c b fr (fields : kwargs) ids w :
  scorer_ok lm p c → (1 ≤ b)%nat →
  fields !! "input_ids" = Some ids →
  Forall (λ r, length r = w) ids →
  Forall (Forall (token_ok p c)) ids →
  ∀ cnt i st,
    drop (i * b) <$> model_inputs st = drop (i * b) <$> fields →
    (∀ k, i ≤ k < i + cnt → k * b < length ids)%nat →
    ∃ st', foldlM (batch_step lm b fr) st ((λ k, k * b)%nat <$> seq i cnt)
           = Ok st' ∧
      history st' = history st ++
        ((λ s, iteration_of lm (py_slice s (s + b) <$> fields))
           <$> ((λ k, k * b)%nat <$> seq i cnt)) ∧
      loss_list st' = loss_list st ++
        mjoin (it_loss <$>
          ((λ s, iteration_of lm (py_slice s (s + b) <$> fields))
             <$> ((λ k, k * b)%nat <$> seq i cnt))).
Proof.
  intros Hok Hb Hids Hrect Htok cnt.
  induction cnt as [|cnt IH]; intros i st Hinv Hlt.
  { exists st. cbn. by rewrite !app_nil_r. }
  cbn [seq fmap list_fmap foldlM].
  assert (i * b < length ids)%nat as Hi by (apply Hlt; lia).
  assert ((py_slice (i * b) (i * b + b) <$> model_inputs st : kwargs)
          = py_slice (i * b) (i * b + b) <$> fields) as Hin.
  { unfold py_slice.
    rewrite (map_fmap_compose (drop (i * b)) (take (i * b + b - i * b))
               (model_inputs st)).
    rewrite (map_fmap_compose (drop (i * b)) (take (i * b + b - i * b))
               fields).
    by rewrite Hinv. }
  pose proof (batch_step_ok lm p c b fr st (i * b)%nat
                (py_slice (i * b) (i * b + b) ids) w Hok) as Hstep.
  rewrite Hin in Hstep. 
  rewrite lookup_fmap, Hids in Hstep. specialize (Hstep eq_refl).
  cbv zeta in Hstep. rewrite Hstep; clear Hstep.
  2:{ unfold py_slice. intros Hnil. apply (f_equal length) in Hnil.
      rewrite length_take, length_drop in Hnil. cbn in Hnil. lia. }
  2:{ unfold py_slice. by apply Forall_take, Forall_drop. }
  2:{ unfold py_slice. by apply Forall_take, Forall_drop. }
  bind_ok.
  set (it := iteration_of lm (py_slice (i * b) (i * b + b) <$> fields)).
  match goal with |- ∃ st', foldlM _ ?s _ = _ ∧ _ => set (st1 := s) end.
  destruct (IH (S i) st1) as (st' & Hrun & Hhist & Hloss).
  - subst st1. cbn [model_inputs].
    replace (S i * b)%nat with (i * b + b)%nat by lia.
    apply map_eq. intros key. rewrite !lookup_fmap.
    pose proof (f_equal (λ m : kwargs, m !! key) Hinv) as Hk. cbn beta in Hk.
    rewrite !lookup_fmap in Hk.
    destruct (lm_device lm); [|by apply option_drop_more].
    destruct (decide (key = "input_ids")) as [->|Hne];
      [|rewrite lookup_alter_ne by done; by apply option_drop_more].
    rewrite lookup_alter_eq. rewrite Hids in Hk |- *.
    destruct (model_inputs st !! "input_ids") as [v|]; [|done].
    injection Hk as Hk. cbn [fmap option_fmap option_map]. f_equal.
    assert (length v = length ids) as Hv.
    { apply (f_equal length) in Hk. rewrite !length_drop in Hk. lia. }
    rewrite drop_write_rows.
    + by rewrite <- !drop_drop, Hk.
    + subst it. unfold iteration_of. cbn [it_label].
      rewrite lookup_fmap, Hids. cbn [fmap option_fmap option_map default].
      rewrite (Forall2_length _ _ _ (mask_pad_lengths _ _)).
      unfold py_slice, id. rewrite length_take. lia.
    + lia.
  - intros k Hk. apply Hlt. lia.
  - exists st'. split; [done|]. subst st1. cbn [history loss_list] in *.
    rewrite Hhist, Hloss. rewrite <- !app_assoc. split; [done|].
    done.
Qed.

Lemma encode_inputs_ok (lm : LM T) p input_texts :
  pad_token_id (tokenizer lm) = Some p → input_texts ≠ [] →
  encode_inputs lm input_texts = Ok (fields_of lm p input_texts).
Proof.
  intros Hpad Hne. unfold encode_inputs, tokenizer_call, fields_of.
  unfold input_ids_of, attention_mask_of, pad_width, truncated, seq_limit.
  rewrite Hpad.
  destruct (max_length lm) as [n|]; cbn [default from_option id];
    rewrite decide_False by done;
    destruct (returns_token_type_ids (tokenizer lm));
    bind_ok; f_equal;
    rewrite <- ?list_fmap_compose;
    rewrite ?delete_insert_eq; rewrite delete_id; try done.
Qed.

Lemma length_truncate {A} sd (limit : nat) (row : list A) :
  length (truncate sd limit row) = (limit `min` length row)%nat.
Proof.
  destruct sd; cbn; [rewrite length_drop|rewrite length_take]; lia.
Qed.

Lemma Forall_truncate {A} (P : A → Prop) sd (limit : nat) (row : list A) :
  Forall P row → Forall P (truncate sd limit row).
Proof.
  intros Hrow. destruct sd; cbn; [by apply Forall_drop|by apply Forall_take].
Qed.

Lemma length_pad_row sd fill width row :
  (length row ≤ width)%nat → length (pad_row sd fill width row) = width.
Proof.
  intros Hle. destruct sd; cbn; rewrite length_app, length_replicate; lia.
Qed.

Lemma length_truncated_le (lm : LM T) input_texts s :
  s ∈ input_texts →
  (default 0%nat (max_length lm) ≤ model_max_length (tokenizer lm))%nat →
  (length (truncated lm s) ≤ pad_width lm input_texts)%nat.
Proof.
  intros Hs Hml. unfold pad_width.
  destruct (max_length lm) as [n|] eqn:Hn.
  - unfold truncated, seq_limit. rewrite Hn, length_truncate. cbn. lia.
  - apply max_list_elem_of_le. apply list_elem_of_fmap. exists (truncated lm s).
    split; [done|]. apply list_elem_of_fmap. by exists s.
Qed.

Lemma input_ids_rect (lm : LM T) p input_texts :
  Forall (λ r, length r = pad_width lm input_texts)
    (input_ids_of lm p input_texts).
Proof.
  unfold input_ids_of. apply Forall_fmap, Forall_forall. intros s Hs. cbn.
  apply length_pad_row. rewrite length_fmap.
  unfold pad_width. destruct (max_length lm) as [n|] eqn:Hn.
  - unfold truncated, seq_limit. rewrite Hn, length_truncate. cbn. lia.
  - apply max_list_elem_of_le. apply list_elem_of_fmap. exists (truncated lm s).
    split; [done|]. apply list_elem_of_fmap. by exists s.
Qed.

Lemma input_ids_tokens (lm : LM T) p c input_texts :
  (∀ s, Forall (λ t, (t < c)%nat) (encode (tokenizer lm) s)) →
  Forall (Forall (token_ok p c)) (input_ids_of lm p input_texts).
Proof.
  intros Hv. unfold input_ids_of. apply Forall_fmap, Forall_forall.
  intros s _. cbn.
  assert (Forall (token_ok p c) (Z.of_nat <$> truncated lm s)) as Htr.
  { apply Forall_fmap. unfold truncated. apply Forall_truncate.
    eapply Forall_impl; [apply Hv|]. intros t Ht. right.
    cbv beta in Ht |- *. unfold compose. lia. }
  assert (∀ k, Forall (token_ok p c) (replicate k (Z.of_nat p))) as Hrep.
  { intros k. apply Forall_replicate. by left. }
  destruct (padding_side (tokenizer lm)); cbn; apply Forall_app; auto.
Qed.

Lemma LM_init_inv tk (m : PreTrainedModel T) ml gpus dmap (lm : LM T) :
  LM_init tk m ml gpus dmap = Ok lm →
  tokenizer lm = match pad_token_id tk with
                 | None => add_pad_token tk
                 | Some _ => tk
                 end
  ∧ forward (model lm) = forward m
  ∧ embeddings (model lm) = match pad_token_id tk with
                            | None => S (vocab_len tk)
                            | Some _ => embeddings m
                            end
  ∧ pad_token_initialized lm = bool_decide (pad_token_id tk = None)
  ∧ max_length lm = ml.
Proof.
  unfold LM_init.
  destruct (pad_token_id tk) as [p|], ml as [len|]; cbn;
    try destruct (decide (len ≤ _)%nat); cbn; try done;
    destruct dmap; try destruct (decide (1 ≤ gpus)%nat);
    by intros [= <-].
Qed.

Lemma LM_init_ok tk (m : PreTrainedModel T) ml gpus dmap (lm : LM T) :
  pretrained_ok tk m → LM_init tk m ml gpus dmap = Ok lm →
  ∃ p c, scorer_ok lm p c ∧
    (∀ s, Forall (λ t, (t < c)%nat) (encode (tokenizer lm) s)) ∧
    max_length lm = ml ∧
    pad_token_initialized lm = bool_decide (pad_token_id tk = None).
Proof.
  intros [Htok Hemb Hshape] Hinit.
  destruct (LM_init_inv _ _ _ _ _ _ Hinit)
    as (Htk & Hfwd & Hembs & Hflag & Hml).
  destruct (pad_token_id tk) as [p|] eqn:Hpad.
  - exists p, (embeddings m). split_and!; try done.
    + split; [by rewrite Htk|]. intros kw ids Hkw.
      unfold batch_logit, logits. rewrite Hflag, Hfwd, Hembs.
      rewrite bool_decide_eq_false_2 by done. by apply Hshape.
    + intros s. rewrite Htk.
      eapply Forall_impl; [apply Htok|]. intros t Ht. cbv beta in *. lia.
  - exists (vocab_len tk), (vocab_len tk). split_and!; try done.
    + split; [by rewrite Htk|]. intros kw ids Hkw.
      unfold batch_logit, logits. rewrite Hflag, Hfwd, Hembs.
      rewrite bool_decide_eq_true_2 by done.
      apply Forall2_fmap_l. eapply Forall2_impl; [by apply Hshape|].
      intros o r [Hlen Hcols]. unfold compose. cbv beta.
      rewrite length_fmap. split; [done|].
      apply Forall_fmap. eapply Forall_impl; [done|]. intros col Hcol.
      cbv beta in Hcol |- *. unfold compose.
      rewrite length_drop_last, Hcol. lia.
    + intros s. rewrite Htk. apply Htok.
Qed.

Lemma starts_lt n b k :
  (1 ≤ b)%nat → (k < (n + b - 1) / b)%nat → (k * b < n)%nat.
Proof.
  intros Hb Hk.
  pose proof (Nat.Div0.mul_div_le (n + b - 1) b) as Hle. nia.
Qed.

Lemma run_batches_ok tk (m : PreTrainedModel T) ml gpus dmap (lm : LM T)
    input_texts batch fr :
  pretrained_ok tk m → LM_init tk m ml gpus dmap = Ok lm →
  positive_batch (length input_texts) batch →
  ∃ p c st,
    scorer_ok lm p c ∧
    (∀ s, Forall (λ t, (t < c)%nat) (encode (tokenizer lm) s)) ∧
    run_batches lm input_texts batch fr = Ok st ∧
    history st =
      (λ s, iteration_of lm
              (py_slice s (s + batch_size (length input_texts) batch)
                 <$> fields_of lm p input_texts))
      <$> starts (length input_texts)
            (batch_size (length input_texts) batch) ∧
    loss_list st = mjoin (it_loss <$> history st).
Proof.
  intros Hpre Hinit Hb.
  destruct (LM_init_ok _ _ _ _ _ _ Hpre Hinit)
    as (p & c & Hok & Htok & Hml & _).
  destruct Hb as [Hne Hb].
  assert (input_texts ≠ []) as Hnil by (intros ->; cbn in Hne; lia).
  pose proof (encode_inputs_ok lm p input_texts (ok_pad _ _ _ Hok) Hnil)
    as Henc.
  unfold batch_size.
  set (bz := default (Z.of_nat (length input_texts)) batch) in *.
  set (fields := fields_of lm p input_texts) in *.
  set (st0 := {| model_inputs := fields; loss_list := [];
                 batch_inputs := None; output := None; history := [] |}
              : frame T).
  destruct (loop_ok lm p c (Z.to_nat bz) fr fields
              (input_ids_of lm p input_texts) (pad_width lm input_texts)
              Hok ltac:(lia) ltac:(done)
              (input_ids_rect lm p input_texts)
              (input_ids_tokens lm p c input_texts Htok)
              ((length input_texts + Z.to_nat bz - 1) / Z.to_nat bz)%nat
              0%nat st0 eq_refl) as (st' & Hrun & Hhist & Hloss).
  { intros k Hk. unfold input_ids_of. rewrite length_fmap.
    apply starts_lt; lia. }
  exists p, c, st'. split; [done|]. split; [done|].
  unfold run_batches. fold bz. rewrite Henc.
  bind_ok.
  unfold py_range. rewrite !decide_False by lia.
  bind_ok.
  split; [exact Hrun|]. cbn [history loss_list app] in Hhist, Hloss.
  split; [exact Hhist|]. by rewrite Hloss, Hhist.
Qed.
End Lemmas.

(** ** Batches and the per-sequence loss *)

Section Batches.
Context {T : Type} `{Scalar T}.

Lemma py_slice_fmap {A B} (f : A → B) (s e : nat) (l : list A) :
  py_slice s e (f <$> l) = f <$> py_slice s e l.
Proof. unfold py_slice. by rewrite fmap_take, fmap_drop. Qed.

Lemma mask_pad_slice p (s e : nat) ids :
  mask_pad p (py_slice s e ids) = py_slice s e (mask_pad p ids).
Proof. destruct p; cbn; [by rewrite py_slice_fmap|done]. Qed.

Lemma mjoin_slices_from {A} (l : list A) (b cnt i : nat) :
  mjoin ((λ s, py_slice s (s + b) l) <$> ((λ k, k * b)%nat <$> seq i cnt))
  = take (cnt * b) (drop (i * b) l).
Proof.
  revert i. induction cnt as [|cnt IH]; intros i.
  { by rewrite Nat.mul_0_l, take_0. }
  cbn [seq fmap list_fmap].
  change (mjoin (?x :: ?xs)) with (x ++ mjoin xs).
  rewrite IH. unfold py_slice.
  replace (i * b + b - i * b)%nat with b by lia.
  replace (S i * b)%nat with (i * b + b)%nat by lia.
  by rewrite <- drop_drop, take_take_drop.
Qed.

Lemma ceil_mul_ge (n b : nat) : (1 ≤ b → n ≤ (n + b - 1) / b * b)%nat.
Proof.
  intros Hb.
  pose proof (Nat.div_mod (n + b - 1) b ltac:(lia)) as Hdm.
  pose proof (Nat.mod_upper_bound (n + b - 1) b ltac:(lia)) as Hm.
  nia.
Qed.

Lemma mjoin_slices {A} (l : list A) (b : nat) :
  (1 ≤ b)%nat →
  mjoin ((λ s, py_slice s (s + b) l) <$> starts (length l) b) = l.
Proof.
  intros Hb. unfold starts. rewrite mjoin_slices_from.
  rewrite drop_0, take_ge; [done|]. by apply ceil_mul_ge.
Qed.


Lemma elem_of_starts (n b s : nat) :
  (1 ≤ b)%nat → s ∈ starts n b → (s < n)%nat.
Proof.
  intros Hb (k & -> & Hk)%list_elem_of_fmap.
  apply elem_of_seq in Hk. apply starts_lt; lia.
Qed.

(** The batch a forward pass receives. *)
Lemma chunk_input_ids (lm : LM T) p input_texts (s b : nat) :
  (py_slice s (s + b) <$> fields_of lm p input_texts : kwargs) !! "input_ids"
  = Some (py_slice s (s + b) (input_ids_of lm p input_texts)).
Proof. unfold fields_of. by rewrite lookup_fmap, lookup_insert_eq. Qed.

Lemma chunk_facts (lm : LM T) p c input_texts (s b : nat) :
  (∀ s, Forall (λ t, (t < c)%nat) (encode (tokenizer lm) s)) →
  (1 ≤ b)%nat → (s < length input_texts)%nat →
  let ids := py_slice s (s + b) (input_ids_of lm p input_texts) in
  ids ≠ [] ∧ Forall (λ r, length r = pad_width lm input_texts) ids
  ∧ Forall (Forall (token_ok p c)) ids.
Proof.
  intros Htok Hb Hs ids. subst ids. unfold py_slice. split_and!.
  - intros Hnil. apply (f_equal length) in Hnil.
    rewrite length_take, length_drop in Hnil. unfold input_ids_of in Hnil.
    rewrite length_fmap in Hnil. cbn in Hnil. lia.
  - apply Forall_take, Forall_drop, input_ids_rect.
  - by apply Forall_take, Forall_drop, input_ids_tokens.
Qed.

Lemma mask_pad_input_ids (lm : LM T) p input_texts :
  mask_pad (Some p) (input_ids_of lm p input_texts)
  = label_of_text lm p input_texts <$> input_texts.
Proof.
  unfold mask_pad, input_ids_of. by rewrite <- list_fmap_compose.
Qed.

Lemma fmap_mjoin {A B} (f : A → B) (ls : list (list A)) :
  f <$> mjoin ls = mjoin ((λ l : list A, f <$> l) <$> ls).
Proof.
  induction ls as [|l ls IH]; [done|].
  change (mjoin (l :: ls)) with (l ++ mjoin ls).
  rewrite fmap_app, IH. done.
Qed.

Lemma zip_with_row_loss (A : list (list (list T))) (B : list (list Z)) :
  zip_with fdiv_int (sum_rows (zip_with (zip_with ce_val) A B))
    (count_valid <$> B)
  = zip_with row_loss A B.
Proof.
  revert B. induction A as [|a A IH]; intros [|b B]; try done.
  cbn. by rewrite <- IH.
Qed.

Lemma count_valid_zip (lg : list (list T)) (lb : list Z) :
  length lg = length lb →
  count_valid lb
  = Z.of_nat (length (filter (λ q : list T * Z, q.2 ≠ PAD_TOKEN_LABEL_ID)
                        (zip lg lb))).
Proof.
  unfold count_valid. intros Hlen. f_equal. revert lb Hlen.
  induction lg as [|g lg IH]; intros [|t lb] Hlen; try done.
  cbn [zip zip_with]. rewrite !filter_cons. cbn [snd].
  injection Hlen as Hlen.
  destruct (decide (t ≠ PAD_TOKEN_LABEL_ID)); cbn; by rewrite IH.
Qed.

Lemma fsum_valid (lg : list (list T)) (lb : list Z) (pre : list T) :
  zero_neutral →
  fsum (pre ++ zip_with ce_val lg lb)
  = fsum (pre ++ ((λ q, nll q.1 (Z.to_nat q.2))
       <$> filter (λ q, q.2 ≠ PAD_TOKEN_LABEL_ID) (zip lg lb))).
Proof.
  intros Hz. revert lb pre.
  induction lg as [|g lg IH]; intros [|t lb] pre; try done.
  cbn [zip_with zip]. rewrite filter_cons. cbn [snd]. unfold ce_val at 1.
  destruct (decide (t = PAD_TOKEN_LABEL_ID)) as [->|Hne].
  - rewrite decide_False by (intros Hne; by apply Hne).
    rewrite Hz. apply IH.
  - rewrite decide_True by done. cbn [fmap list_fmap fst snd].
    rewrite !(cons_middle _ pre), !app_assoc. apply IH.
Qed.

Lemma row_loss_mean_nll (lg : list (list T)) (lb : list Z) :
  zero_neutral → length lg = length lb →
  row_loss lg lb = mean_nll PAD_TOKEN_LABEL_ID lg lb.
Proof.
  intros Hz Hlen. unfold row_loss, mean_nll. cbv zeta.
  pose proof (fsum_valid lg lb [] Hz) as Hsum. cbn [app] in Hsum.
  by rewrite Hsum, (count_valid_zip lg lb).
Qed.

Lemma iteration_scorable (lm : LM T) p c (kw : kwargs) ids :
  scorer_ok lm p c → kw !! "input_ids" = Some ids →
  Forall (Forall (token_ok p c)) ids →
  Forall2 (Forall2 (@scorable T))
    (it_shift_logits (iteration_of lm kw))
    (it_shift_label (iteration_of lm kw)).
Proof.
  intros Hok Hkw Htok.
  pose proof (shifted_scorable lm p c kw ids Hok Hkw Htok) as Hsc.
  unfold iteration_of. cbn. by rewrite (ok_pad _ _ _ Hok), Hkw.
Qed.

Lemma iteration_loss (lm : LM T) (kw : kwargs) :
  it_loss (iteration_of lm kw)
  = zip_with row_loss (it_shift_logits (iteration_of lm kw))
      (it_shift_label (iteration_of lm kw)).
Proof. unfold iteration_of. cbn. apply zip_with_row_loss. Qed.

Lemma run_facts tk (m : PreTrainedModel T) ml gpus dmap (lm : LM T)
    input_texts batch fr :
  pretrained_ok tk m → LM_init tk m ml gpus dmap = Ok lm →
  positive_batch (length input_texts) batch →
  ∃ p c st,
    scorer_ok lm p c ∧
    run_batches lm input_texts batch fr = Ok st ∧
    loss_list st = mjoin (it_loss <$> history st) ∧
    history st =
      (λ s, iteration_of lm
              (py_slice s (s + batch_size (length input_texts) batch)
                 <$> fields_of lm p input_texts))
      <$> starts (length input_texts)
            (batch_size (length input_texts) batch) ∧
    Forall (batch_ok lm p c (pad_width lm input_texts)) (history st).
Proof.
  intros Hpre Hinit Hb.
  destruct (run_batches_ok _ _ _ _ _ _ input_texts batch fr Hpre Hinit Hb)
    as (p & c & st & Hok & Htok & Hrun & Hhist & Hloss).
  exists p, c, st. split_and!; try done.
  rewrite Hhist. apply Forall_fmap, Forall_forall. intros s Hs.
  assert (1 ≤ batch_size (length input_texts) batch)%nat as Hb'.
  { unfold positive_batch in Hb. unfold batch_size. lia. }
  apply elem_of_starts in Hs; [|done].
  destruct (chunk_facts lm p c input_texts s _ Htok Hb' Hs)
    as (Hne & Hrect & Htoks).
  eexists. split; [done|]. split; [apply chunk_input_ids|]. done.
Qed.

Lemma batch_ok_lengths (lm : LM T) p c w it :
  scorer_ok lm p c → batch_ok lm p c w it →
  Forall2 (λ (lg : list (list T)) (lb : list Z), length lg = length lb)
    (it_shift_logits it) (it_shift_label it).
Proof.
  intros Hok (ids & Hit & Hkw & _ & _ & Htok).
  rewrite Hit. eapply Forall2_impl.
  - by eapply iteration_scorable.
  - intros lg lb. apply Forall2_length.
Qed.

Lemma batch_ok_loss (lm : LM T) p c w it :
  batch_ok lm p c w it →
  it_loss it = zip_with row_loss (it_shift_logits it) (it_shift_label it).
Proof. intros (ids & Hit & _). rewrite Hit. apply iteration_loss. Qed.

Lemma loss_list_scored (hist : list (iteration T))
    (g : list (list T) → list Z → T) :
  Forall (λ it, it_loss it
                = zip_with g (it_shift_logits it) (it_shift_label it)) hist →
  mjoin (it_loss <$> hist)
  = (λ row, g row.1 row.2)
      <$> mjoin ((λ it, zip (it_shift_logits it) (it_shift_label it))
                   <$> hist).
Proof.
  induction 1 as [|it hist Hit _ IH]; [done|].
  rewrite !fmap_cons.
  change (mjoin (?x :: ?xs)) with (x ++ mjoin xs).
  rewrite fmap_app, IH, Hit. f_equal.
  rewrite (zip_with_zip g). apply list_fmap_ext. by intros ? [??] _.
Qed.

Lemma shift_labels_in_order (lm : LM T) p c input_texts (b : nat)
    (hist : list (iteration T)) :
  scorer_ok lm p c → (1 ≤ b)%nat →
  hist = (λ s, iteration_of lm
                 (py_slice s (s + b) <$> fields_of lm p input_texts))
         <$> starts (length input_texts) b →
  mjoin (it_shift_label <$> hist)
  = (λ s, tail (label_of_text lm p input_texts s)) <$> input_texts.
Proof.
  intros Hok Hb ->.
  rewrite <- list_fmap_compose.
  rewrite (list_fmap_ext _
    (λ s, py_slice s (s + b)
            (tail <$> mask_pad (Some p) (input_ids_of lm p input_texts)))).
  2:{ intros i s _. unfold compose, iteration_of. cbn [it_shift_label].
      rewrite (ok_pad _ _ _ Hok), chunk_input_ids.
      change (default [] (Some ?x)) with x.
      by rewrite mask_pad_slice, py_slice_fmap. }
  assert (length input_texts
          = length (tail <$> mask_pad (Some p) (input_ids_of lm p input_texts)))
    as Hlen.
  { rewrite mask_pad_input_ids, !length_fmap. done. }
  rewrite Hlen at 1. rewrite mjoin_slices by done.
  rewrite mask_pad_input_ids. by rewrite <- list_fmap_compose.
Qed.

Lemma snd_scored_rows (lm : LM T) p c w (hist : list (iteration T)) :
  scorer_ok lm p c → Forall (batch_ok lm p c w) hist →
  (mjoin ((λ it, zip (it_shift_logits it) (it_shift_label it)) <$> hist)).*2
  = mjoin (it_shift_label <$> hist).
Proof.
  intros Hok. induction 1 as [|it hist Hit _ IH]; [done|].
  rewrite !fmap_cons.
  change (mjoin (?x :: ?xs)) with (x ++ mjoin xs).
  rewrite fmap_app, IH. f_equal. apply snd_zip.
  apply (batch_ok_lengths _ _ _ _ _ Hok), Forall2_length in Hit. lia.
Qed.

End Batches.

(** ** The test double is well formed *)

Lemma demo_pretrained {T} (logit : list Z → nat → nat → T) pad sd tt :
  pretrained_ok (Demo.tk pad sd tt) (Demo.net_of logit).
Proof.
  split.
  - intros s. unfold Demo.tk. cbn [encode vocab_len].
    apply Forall_fmap, Forall_forall. intros a _. unfold compose.
    apply Nat.mod_upper_bound. lia.
  - cbn. lia.
  - intros v kw ids Hkw. cbn. rewrite Hkw.
    apply Forall2_fmap_l, Forall_Forall2_diag, Forall_forall.
    intros row _. split; [apply length_imap|].
    apply Forall_forall. intros col (i & x & -> & _)%elem_of_lookup_imap.
    by rewrite length_fmap, length_seq.
Qed.

Lemma demo_zero_neutral : zero_neutral (T := Demo.sym).
Proof.
  intros l k. cbn [fsum fzero Demo.sym_scalar].
  rewrite !filter_app, filter_cons_False; [done|]. cbn. by intros [=].
Qed.

(** ** Shifted and masked rows *)

Section Shift.
Context {T : Type} `{Scalar T}.

Lemma lookup_drop_last {A} (l : list A) (i : nat) :
  drop_last l !! i = if decide (S i < length l)%nat then l !! i else None.
Proof.
  unfold drop_last. destruct (decide (S i < length l)%nat).
  - apply lookup_take_lt. lia.
  - apply lookup_ge_None. rewrite length_take. lia.
Qed.


Lemma mask_id_valid p c t :
  token_ok p c t → mask_id p t ≠ PAD_TOKEN_LABEL_ID ↔ t ≠ Z.of_nat p.
Proof.
  unfold mask_id, token_ok, PAD_TOKEN_LABEL_ID.
  destruct (decide (t = Z.of_nat p)); [done|]. lia.
Qed.

Lemma valid_masked p c (lg : list (list T)) (tl : list Z) :
  Forall (token_ok p c) tl →
  (λ q : list T * Z, nll q.1 (Z.to_nat q.2))
    <$> filter (λ q, q.2 ≠ PAD_TOKEN_LABEL_ID) (zip lg (mask_id p <$> tl))
  = (λ q : list T * Z, nll q.1 (Z.to_nat q.2))
    <$> filter (λ q, q.2 ≠ Z.of_nat p) (zip lg tl).
Proof.
  intros Htl. revert lg.
  induction Htl as [|t tl Ht _ IH]; intros [|g lg]; try done.
  rewrite fmap_cons. cbn [zip zip_with]. rewrite !filter_cons. cbn [snd].
  pose proof (mask_id_valid p c t Ht) as Hv.
  destruct (decide (mask_id p t ≠ PAD_TOKEN_LABEL_ID)) as [Hm|Hm],
    (decide (t ≠ Z.of_nat p)) as [Hp|Hp]; try tauto.
  - rewrite !fmap_cons, IH. cbn [fst snd]. unfold mask_id.
    by rewrite decide_False.
  - apply IH.
Qed.

Lemma mean_nll_masked p c (lg : list (list T)) (tl : list Z) :
  Forall (token_ok p c) tl →
  mean_nll PAD_TOKEN_LABEL_ID lg (mask_id p <$> tl)
  = mean_nll (Z.of_nat p) lg tl.
Proof.
  intros Htl. unfold mean_nll. cbv zeta.
  rewrite <- (length_fmap (λ q : list T * Z, nll q.1 (Z.to_nat q.2))
                (filter _ (zip lg (mask_id p <$> tl)))).
  rewrite <- (length_fmap (λ q : list T * Z, nll q.1 (Z.to_nat q.2))
                (filter _ (zip lg tl))).
  by rewrite (valid_masked p c).
Qed.


End Shift.

(** ** Slices of the fields *)

Section More.
Context {T : Type} `{Scalar T}.

Lemma fields_rows (lm : LM T) p input_texts key rows :
  fields_of lm p input_texts !! key = Some rows →
  length rows = length input_texts.
Proof.
  unfold fields_of. intros Hk.
  apply lookup_insert_Some in Hk as [[_ <-]|[_ Hk]].
  { unfold input_ids_of. by rewrite length_fmap. }
  apply lookup_singleton_Some in Hk as [_ <-].
  unfold attention_mask_of. by rewrite length_fmap.
Qed.



End More.

(** ** Independence of the batch size *)

Section Indep.
Context {T : Type} `{Scalar T}.

Lemma py_slice_zip_with {A B C} (f : A → B → C) (s e : nat) l k :
  py_slice s e (zip_with f l k)
  = zip_with f (py_slice s e l) (py_slice s e k).
Proof. unfold py_slice. by rewrite zip_with_drop, zip_with_take. Qed.

Lemma py_slice_nil {A} (s e : nat) : py_slice s e (@nil A) = [].
Proof. unfold py_slice. by rewrite drop_nil, take_nil. Qed.

Lemma batch_logit_slice (lm : LM T) (s e : nat) out :
  batch_logit lm (py_slice s e out) = py_slice s e (batch_logit lm out).
Proof.
  unfold batch_logit. destruct (pad_token_initialized lm); [|done].
  by rewrite py_slice_fmap.
Qed.

Lemma slice_invariant_init tk (m : PreTrainedModel T) ml gpus dmap
    (lm : LM T) :
  slice_invariant m → LM_init tk m ml gpus dmap = Ok lm →
  ∀ (kw : kwargs) (s e : nat),
    logits (model lm) (py_slice s e <$> kw)
    = py_slice s e (logits (model lm) kw).
Proof.
  intros Hm Hinit kw s e. unfold logits.
  assert (forward (model lm) = forward m) as ->; [|apply Hm].
  by destruct (LM_init_inv _ _ _ _ _ _ Hinit) as (_ & Hfwd & _).
Qed.

Lemma iteration_loss_slice (lm : LM T) (kw : kwargs) (s e : nat) :
  (∀ (kw : kwargs) (s e : nat),
     logits (model lm) (py_slice s e <$> kw)
     = py_slice s e (logits (model lm) kw)) →
  it_loss (iteration_of lm (py_slice s e <$> kw))
  = py_slice s e (it_loss (iteration_of lm kw)).
Proof.
  intros Hm. rewrite !iteration_loss. unfold iteration_of.
  cbn [it_shift_logits it_shift_label].
  rewrite Hm, batch_logit_slice, lookup_fmap.
  assert (default [] (py_slice s e <$> kw !! "input_ids")
          = py_slice s e (default [] (kw !! "input_ids"))) as ->.
  { destruct (kw !! "input_ids"); [done|]. cbn. by rewrite py_slice_nil. }
  by rewrite mask_pad_slice, <- !py_slice_fmap, py_slice_zip_with.
Qed.

Lemma length_iteration_loss (lm : LM T) p c (kw : kwargs) ids :
  scorer_ok lm p c → kw !! "input_ids" = Some ids →
  length (it_loss (iteration_of lm kw)) = length ids.
Proof.
  intros Hok Hkw. rewrite iteration_loss. unfold iteration_of.
  cbn [it_shift_logits it_shift_label].
  rewrite (ok_pad _ _ _ Hok), Hkw. cbn [default from_option]. unfold id.
  pose proof (Forall2_length _ _ _ (ok_shape _ _ _ Hok _ _ Hkw)) as Hl.
  pose proof (Forall2_length _ _ _ (mask_pad_lengths (Some p) ids)) as Hl'.
  rewrite length_zip_with_l_eq; rewrite !length_fmap; congruence.
Qed.

(** The losses of a run are those of one forward pass over all the
    texts when the model treats the sequences independently. *)
Lemma loss_list_single_batch tk (m : PreTrainedModel T) ml gpus dmap
    (lm : LM T) input_texts batch fr :
  pretrained_ok tk m → slice_invariant m →
  LM_init tk m ml gpus dmap = Ok lm →
  positive_batch (length input_texts) batch →
  ∃ p st,
    pad_token_id (tokenizer lm) = Some p ∧
    run_batches lm input_texts batch fr = Ok st ∧
    loss_list st = it_loss (iteration_of lm (fields_of lm p input_texts)).
Proof.
  intros Hpre Hm Hinit Hb.
  destruct (run_facts _ _ _ _ _ _ input_texts batch fr Hpre Hinit Hb)
    as (p & c & st & Hok & Hrun & Hloss & Hhist & _).
  exists p, st. split; [by destruct Hok|]. split; [done|].
  rewrite Hloss, Hhist, <- list_fmap_compose.
  erewrite list_fmap_ext.
  2:{ intros i s _. unfold compose.
      apply iteration_loss_slice. by eapply slice_invariant_init. }
  assert (length input_texts
          = length (it_loss (iteration_of lm (fields_of lm p input_texts))))
    as Hlen.
  { rewrite (length_iteration_loss lm p c _ (input_ids_of lm p input_texts));
      [|done|done]. unfold input_ids_of. by rewrite length_fmap. }
  rewrite Hlen at 1. apply mjoin_slices.
  unfold positive_batch in Hb. unfold batch_size. lia.
Qed.

(** C8: for a non-empty input and a batch size of at least one,
    [get_perplexity] returns what it returns with the default single
    batch, provided the forward pass treats the sequences of a batch
    independently: the texts are tokenized and padded once, before the
    loop, and the loss of a sequence depends on its own row only. *)
Theorem batch_size_irrelevant tk (m : PreTrainedModel T) ml gpus dmap
    (lm : LM T) input_texts (b : Z) fr :
  pretrained_ok tk m → slice_invariant m →
  LM_init tk m ml gpus dmap = Ok lm →
  as_list input_texts ≠ [] → 1 ≤ b →
  get_perplexity lm input_texts (Some b) fr
  = get_perplexity lm input_texts None fr.
Proof.
  intros Hpre Hm Hinit Hne Hb.
  assert (1 ≤ length (as_list input_texts))%nat as Hlen.
  { destruct (as_list input_texts); [done|]. cbn [length]. lia. }
  destruct (loss_list_single_batch _ _ _ _ _ _ (as_list input_texts)
              (Some b) fr Hpre Hm Hinit) as (p & st & Hp & Hrun & Hloss).
  { done. }
  destruct (loss_list_single_batch _ _ _ _ _ _ (as_list input_texts)
              None fr Hpre Hm Hinit) as (p' & st' & Hp' & Hrun' & Hloss').
  { unfold positive_batch. cbn [default from_option]. unfold id. lia. }
  assert (p' = p) as -> by congruence.
  unfold get_perplexity. rewrite Hrun, Hrun'.
  bind_ok. by rewrite Hloss, Hloss'.
Qed.
End Indep.

(** ** The tokenizer of the scorer and the shape of the result *)

Section Shape.
Context {T : Type} `{Scalar T}.

Lemma LM_init_tokenizer tk (m : PreTrainedModel T) ml gpus dmap (lm : LM T) :
  LM_init tk m ml gpus dmap = Ok lm →
  encode (tokenizer lm) = encode tk
  ∧ padding_side (tokenizer lm) = padding_side tk
  ∧ model_max_length (tokenizer lm) = model_max_length tk
  ∧ max_length lm = ml.
Proof.
  intros Hinit.
  destruct (LM_init_inv _ _ _ _ _ _ Hinit) as (Htk & _ & _ & _ & Hml).
  rewrite Htk. by destruct (pad_token_id tk).
Qed.

Lemma pick_single (x : T) :
  mapM py_exp [x] ≫= pick true = Float <$> py_exp x.
Proof. rewrite mapM_cons. by destruct (py_exp x). Qed.

Lemma pick_list (r : result (list T)) : r ≫= pick false = Floats <$> r.
Proof. by destruct r. Qed.

End Shape.

(** ** The valid length *)

Section Valid.
Context {T : Type} `{Scalar T}.


End Valid.

Section IEEEClaims.
Variables (prec emax : Z).
Variable nll_ : list spec_float → nat → spec_float.
Variable exp_ : spec_float → result spec_float.
Variable sum_ : list spec_float → spec_float.

Local Abbreviation ieee := (ieee_scalar prec emax nll_ exp_ sum_).

End IEEEClaims.

(** ** The forced clean-up *)

Section Reset.
Context {T : Type} `{Scalar T}.

Lemma batch_step_reset (lm : LM T) b (st st' : frame T) start :
  same_data st st' →
  result_rel same_data (batch_step lm b true st start)
    (batch_step lm b false st' start).
Proof.
  intros (Hmi & Hll & Hh). unfold batch_step. rewrite Hmi, Hll, Hh.
  destruct (_ !! "input_ids") as [ids|]; [|done]. cbn [from_option].
  bind_ok.
  destruct (token_loss _ _ _) as [tloss|e]; [|done].
  bind_ok.
  destruct (tensor_div _ _) as [loss|e]; [|done].
  by cbn.
Qed.

Lemma foldlM_reset (lm : LM T) b starts_ (st st' : frame T) :
  same_data st st' →
  result_rel same_data (foldlM (batch_step lm b true) st starts_)
    (foldlM (batch_step lm b false) st' starts_).
Proof.
  revert st st'. induction starts_ as [|start starts_ IH]; intros st st' Hst.
  { done. }
  cbn [foldlM]. pose proof (batch_step_reset lm b st st' start Hst) as Hstep.
  destruct (batch_step lm b true st start) as [st1|e],
    (batch_step lm b false st' start) as [st1'|e']; try done.
  by apply IH.
Qed.

Lemma run_batches_reset (lm : LM T) input_texts batch :
  result_rel same_data (run_batches lm input_texts batch true)
    (run_batches lm input_texts batch false).
Proof.
  unfold run_batches.
  destruct (encode_inputs lm input_texts) as [fields|e]; [|done].
  bind_ok.
  destruct (py_range _ _) as [starts_|e]; [|done].
  bind_ok.
  by apply foldlM_reset.
Qed.

(** C9: [get_perplexity] returns the same value, or raises the same
    exception, with [forced_reset] true and false, for every scorer,
    input and batch size; the two runs leave the same data behind and
    differ only in that the clean-up unbinds [batch_inputs] and
    [output]. *)
Theorem forced_reset_irrelevant (lm : LM T) (input_texts : texts)
    (batch : option Z) :
  get_perplexity lm input_texts batch true
  = get_perplexity lm input_texts batch false
  ∧ result_rel same_data
      (run_batches lm (as_list input_texts) batch true)
      (run_batches lm (as_list input_texts) batch false).
Proof.
  pose proof (run_batches_reset lm (as_list input_texts) batch) as Hrun.
  split; [|done]. unfold get_perplexity.
  destruct (run_batches lm (as_list input_texts) batch true) as [st|e],
    (run_batches lm (as_list input_texts) batch false) as [st'|e'];
    try done.
  - destruct Hrun as (_ & Hll & _). cbn. by rewrite Hll.
  - cbn in *. by subst.
Qed.
End Reset.

(** ** The value of a text *)

Section Value.
Context {T : Type} `{Scalar T}.

Lemma LM_init_limit tk (m : PreTrainedModel T) ml gpus dmap (lm : LM T) :
  LM_init tk m ml gpus dmap = Ok lm →
  ∀ n, ml = Some n → (n ≤ model_max_length tk)%nat.
Proof.
  intros Hinit n ->. unfold LM_init in Hinit.
  destruct (pad_token_id tk); destruct (decide (n ≤ model_max_length _)%nat);
    try done.
Qed.

Lemma attention_mask_rect (lm : LM T) input_texts :
  Forall (λ r, length r = pad_width lm input_texts)
    (attention_mask_of lm input_texts).
Proof.
  pose proof (input_ids_rect lm 0 input_texts) as Hids.
  unfold input_ids_of in Hids. unfold attention_mask_of.
  rewrite Forall_fmap in Hids |- *.
  eapply Forall_impl; [exact Hids|]. intros s. cbn.
  unfold pad_row. destruct (padding_side _);
    rewrite !length_app, !length_replicate, !length_fmap; done.
Qed.

Lemma mapM_inv {A B} (f : A → result B) (l : list A) (k : list B) :
  mapM f l = Ok k → Forall2 (λ x y, f x = Ok y) l k.
Proof.
  revert k. induction l as [|x l IH]; intros k Hk.
  { injection Hk as <-. constructor. }
  rewrite mapM_cons in Hk. destruct (f x) as [y|e] eqn:Hy; [|done].
  destruct (mapM f l) as [k'|e]; [|done].
  injection Hk as <-. constructor; [done|by apply IH].
Qed.

Lemma lookup_py_slice {A} (l : list A) (s b j : nat) :
  py_slice s (s + b) l !! j
  = if decide (j < b)%nat then l !! (s + j)%nat else None.
Proof.
  unfold py_slice. replace (s + b - s)%nat with b by lia.
  destruct (decide (j < b)%nat).
  - by rewrite lookup_take_lt, lookup_drop.
  - apply lookup_take_ge. lia.
Qed.

Lemma batch_start_chunk (b k j : nat) :
  (j < b)%nat →
  batch_start b (k * b + j) = (k * b)%nat ∧ ((k * b + j) `mod` b = j)%nat.
Proof.
  intros Hj. unfold batch_start.
  assert (b ≠ 0)%nat as Hb by lia.
  rewrite (Nat.add_comm (k * b) j), Nat.div_add, Nat.Div0.mod_add by done.
  rewrite Nat.div_small, Nat.mod_small by done. done.
Qed.

Lemma chunk_loss (lm : LM T) p c input_texts (b k : nat) :
  scorer_ok lm p c → (1 ≤ b)%nat →
  it_loss (iteration_of lm
             (py_slice (k * b) (k * b + b) <$> fields_of lm p input_texts))
  = py_slice (k * b) (k * b + b)
      (imap (λ i s, text_loss lm p input_texts b i s) input_texts).
Proof.
  intros Hok Hb. rewrite iteration_loss.
  set (kw := (py_slice (k * b) (k * b + b) <$> fields_of lm p input_texts
              : kwargs)).
  assert (kw !! "input_ids"
          = Some (py_slice (k * b) (k * b + b) (input_ids_of lm p input_texts)))
    as Hkw by apply chunk_input_ids.
  pose proof (ok_shape _ _ _ Hok _ _ Hkw) as Hshape.
  apply Forall2_length in Hshape.
  unfold iteration_of. cbn [it_shift_logits it_shift_label].
  rewrite (ok_pad _ _ _ Hok), Hkw. cbn [default from_option]. unfold id.
  rewrite mask_pad_slice, mask_pad_input_ids.
  set (BL := batch_logit lm (logits (model lm) kw)) in *.
  apply list_eq. intros j.
  rewrite lookup_zip_with, !list_lookup_fmap, !lookup_py_slice.
  destruct (decide (j < b)%nat) as [Hj|Hj].
  - rewrite list_lookup_imap, list_lookup_fmap.
    destruct (batch_start_chunk b k j Hj) as [Hs Hm].
    destruct (input_texts !! (k * b + j)%nat) as [s|] eqn:Hsj.
    + assert (j < length BL)%nat as Hlen.
      { rewrite Hshape. apply lookup_lt_is_Some.
        rewrite lookup_py_slice, decide_True by done. unfold input_ids_of.
        rewrite list_lookup_fmap, Hsj. by eexists. }
      destruct (lookup_lt_is_Some_2 BL j Hlen) as [x Hx].
      rewrite Hx. cbn. unfold text_loss, text_logits, batch_of.
      rewrite Hs, Hm. fold kw. fold BL. by rewrite Hx.
    + cbn. by destruct (BL !! j).
  - by destruct (BL !! j).
Qed.

(** The loss list of a run, text by text. *)
Lemma loss_list_per_text tk (m : PreTrainedModel T) ml gpus dmap (lm : LM T)
    input_texts batch fr :
  pretrained_ok tk m → LM_init tk m ml gpus dmap = Ok lm →
  positive_batch (length input_texts) batch →
  ∃ p c st,
    scorer_ok lm p c ∧
    run_batches lm input_texts batch fr = Ok st ∧
    history st =
      (λ s, iteration_of lm
              (py_slice s (s + batch_size (length input_texts) batch)
                 <$> fields_of lm p input_texts))
      <$> starts (length input_texts)
            (batch_size (length input_texts) batch) ∧
    Forall (batch_ok lm p c (pad_width lm input_texts)) (history st) ∧
    loss_list st = mjoin (it_loss <$> history st) ∧
    loss_list st
    = imap (λ i s, text_loss lm p input_texts
                     (batch_size (length input_texts) batch) i s)
        input_texts.
Proof.
  intros Hpre Hinit Hb.
  destruct (run_facts _ _ _ _ _ _ input_texts batch fr Hpre Hinit Hb)
    as (p & c & st & Hok & Hrun & Hloss & Hhist & Hall).
  exists p, c, st. split_and!; try done.
  assert (1 ≤ batch_size (length input_texts) batch)%nat as Hb1.
  { unfold positive_batch, batch_size in *. lia. }
  set (b := batch_size (length input_texts) batch) in *.
  set (F := imap (λ i s, text_loss lm p input_texts b i s) input_texts).
  rewrite Hloss, Hhist, <- list_fmap_compose.
  rewrite <- (mjoin_slices F b Hb1).
  replace (length F) with (length input_texts)
    by (subst F; by rewrite length_imap).
  f_equal. apply list_fmap_ext. intros i s Hs. cbn.
  unfold starts in Hs. rewrite list_lookup_fmap in Hs.
  destruct (seq 0 _ !! i) as [k|]; [|done]. injection Hs as <-.
  by apply (chunk_loss lm p c).
Qed.

Lemma get_perplexity_per_text tk (m : PreTrainedModel T) ml gpus dmap
    (lm : LM T) input_texts batch fr :
  pretrained_ok tk m → LM_init tk m ml gpus dmap = Ok lm →
  positive_batch (length (as_list input_texts)) batch →
  ∃ p c st,
    scorer_ok lm p c ∧
    run_batches lm (as_list input_texts) batch fr = Ok st ∧
    loss_list st
    = imap (λ i s, text_loss lm p (as_list input_texts)
                     (batch_size (length (as_list input_texts)) batch) i s)
        (as_list input_texts) ∧
    get_perplexity lm input_texts batch fr
    = mapM py_exp (loss_list st) ≫= pick (is_str input_texts).
Proof.
  intros Hpre Hinit Hb.
  destruct (loss_list_per_text _ _ _ _ _ _ (as_list input_texts) batch fr
              Hpre Hinit Hb)
    as (p & c & st & Hok & Hrun & _ & _ & _ & Hloss).
  exists p, c, st. split_and!; try done.
  unfold get_perplexity. by rewrite Hrun.
Qed.

Lemma batch_start_index (b i : nat) :
  (1 ≤ b)%nat → (batch_start b i + i `mod` b = i)%nat ∧ (i `mod` b < b)%nat.
Proof.
  intros Hb. unfold batch_start. split.
  - pose proof (Nat.div_mod_eq i b). lia.
  - apply Nat.mod_upper_bound. lia.
Qed.

Lemma text_logits_shape (lm : LM T) p c input_texts (b i : nat) s :
  scorer_ok lm p c → (1 ≤ b)%nat → input_texts !! i = Some s →
  length (text_logits lm p input_texts b i) = pad_width lm input_texts
  ∧ Forall (λ col, length col = c) (text_logits lm p input_texts b i).
Proof.
  intros Hok Hb Hs. destruct (batch_start_index b i Hb) as [Hi Hm].
  unfold text_logits, batch_of.
  set (kw := (py_slice (batch_start b i) (batch_start b i + b)
                <$> fields_of lm p input_texts : kwargs)).
  pose proof (ok_shape _ _ _ Hok kw _ (chunk_input_ids lm p input_texts _ b))
    as Hshape.
  assert (py_slice (batch_start b i) (batch_start b i + b)
            (input_ids_of lm p input_texts) !! (i `mod` b)%nat
          = Some (ids_of_text lm p input_texts s)) as Hrow.
  { rewrite lookup_py_slice, decide_True, Hi by done. unfold input_ids_of.
    by rewrite list_lookup_fmap, Hs. }
  destruct (Forall2_lookup_r _ _ _ _ _ Hshape Hrow) as (x & Hx & Hlen & Hcols).
  rewrite Hx. cbn [default from_option]. unfold id. split; [|done].
  rewrite Hlen.
  pose proof (input_ids_rect lm p input_texts) as Hrect.
  rewrite Forall_forall in Hrect. apply Hrect. unfold input_ids_of.
  apply list_elem_of_fmap. exists s. split; [done|].
  by eapply list_elem_of_lookup_2.
Qed.

Lemma length_label_of_text (lm : LM T) p input_texts s :
  s ∈ input_texts →
  length (label_of_text lm p input_texts s) = pad_width lm input_texts.
Proof.
  intros Hs. unfold label_of_text. rewrite length_fmap.
  pose proof (input_ids_rect lm p input_texts) as Hrect.
  rewrite Forall_forall in Hrect. apply Hrect. unfold input_ids_of.
  apply list_elem_of_fmap. by exists s.
Qed.

Lemma shift_pairs {A B C} (f : A → B → C) (d : A) (e : B) (w : nat)
    (lg : list A) (lb : list B) :
  length lg = w → length lb = w →
  zip_with f (drop_last lg) (tail lb)
  = (λ j, f (default d (lg !! j)) (default e (lb !! S j))) <$> seq 0 (w - 1).
Proof.
  intros Hlg Hlb. apply list_eq. intros j.
  rewrite lookup_zip_with, lookup_drop_last, lookup_tail, list_lookup_fmap.
  destruct (decide (S j < length lg)%nat) as [Hj|Hj].
  - rewrite lookup_seq_lt by lia.
    destruct (lookup_lt_is_Some_2 lg j ltac:(lia)) as [x Hx].
    destruct (lookup_lt_is_Some_2 lb (S j) ltac:(lia)) as [y Hy].
    rewrite Hx, Hy. cbn. by rewrite Hx, Hy.
  - rewrite lookup_seq_ge by lia. reflexivity.
Qed.

Lemma text_logits_trim (lm : LM T) p input_texts (b i : nat) :
  text_logits lm p input_texts b i
  = if pad_token_initialized lm
    then drop_last <$> text_output lm p input_texts b i
    else text_output lm p input_texts b i.
Proof.
  unfold text_logits, text_output, batch_logit.
  destruct (pad_token_initialized lm); [|done].
  rewrite list_lookup_fmap. by destruct (_ !! _).
Qed.

Lemma ce_val_masked (p : nat) (row : list T) (t : Z) :
  0 ≤ t →
  ce_val row (mask_id p t)
  = if decide (t = Z.of_nat p) then fzero else nll row (Z.to_nat t).
Proof.
  intros Ht. unfold ce_val, mask_id.
  destruct (decide (t = Z.of_nat p)); [done|].
  rewrite decide_False; [done|]. unfold PAD_TOKEN_LABEL_ID. lia.
Qed.

Lemma ids_of_text_nonneg (lm : LM T) p input_texts s :
  Forall (λ t, 0 ≤ t) (ids_of_text lm p input_texts s).
Proof.
  unfold ids_of_text, pad_row.
  assert (Forall (λ t, 0 ≤ t) (Z.of_nat <$> truncated lm s)) as Htr.
  { apply Forall_fmap, Forall_true. intros t. cbn. lia. }
  assert (∀ k, Forall (λ t, 0 ≤ t) (replicate k (Z.of_nat p))) as Hrep.
  { intros k. apply Forall_replicate. lia. }
  destruct (padding_side (tokenizer lm)); apply Forall_app; auto.
Qed.

Lemma zip_with_masked (p : nat) (lg : list (list T)) (tl : list Z) :
  Forall (λ t, 0 ≤ t) tl →
  zip_with ce_val lg (mask_id p <$> tl)
  = zip_with (λ row t, if decide (t = Z.of_nat p) then fzero
                       else nll row (Z.to_nat t)) lg tl.
Proof.
  intros Htl. revert lg. induction Htl as [|t tl Ht _ IH]; intros lg.
  { by destruct lg. }
  destruct lg as [|row lg]; [done|]. cbn [fmap list_fmap zip_with].
  by rewrite ce_val_masked, IH.
Qed.

Lemma count_valid_nonneg (p : nat) (tl : list Z) :
  Forall (λ t, 0 ≤ t) tl →
  count_valid (mask_id p <$> tl)
  = Z.of_nat (length (filter (λ t, t ≠ Z.of_nat p) tl)).
Proof.
  intros Htl. unfold count_valid. f_equal.
  induction Htl as [|t tl Ht _ IH]; [done|].
  cbn [fmap list_fmap].
  destruct (decide (t = Z.of_nat p)) as [->|Hne].
  - rewrite !filter_cons_False; [done| |].
    + intros Hne. by apply Hne.
    + intros Hne. apply Hne. unfold mask_id. by rewrite decide_True.
  - rewrite !filter_cons_True; [|done|].
    + cbn [length]. by rewrite IH.
    + unfold mask_id. rewrite decide_False by done.
      unfold PAD_TOKEN_LABEL_ID. lia.
Qed.
End Value.

(** ** The mean loss, the causal shift and the pad mask *)

Section Claims.
Context {T : Type} `{Scalar T}.

Lemma labels_in_order (lm : LM T) p c input_texts (b : nat)
    (hist : list (iteration T)) :
  scorer_ok lm p c → (1 ≤ b)%nat →
  hist = (λ s, iteration_of lm
                 (py_slice s (s + b) <$> fields_of lm p input_texts))
         <$> starts (length input_texts) b →
  mjoin (it_label <$> hist) = label_of_text lm p input_texts <$> input_texts.
Proof.
  intros Hok Hb ->.
  rewrite <- list_fmap_compose.
  rewrite (list_fmap_ext _
    (λ s, py_slice s (s + b)
            (mask_pad (Some p) (input_ids_of lm p input_texts)))).
  2:{ intros i s _. unfold compose, iteration_of. cbn [it_label].
      rewrite (ok_pad _ _ _ Hok), chunk_input_ids.
      change (default [] (Some ?x)) with x.
      by rewrite mask_pad_slice. }
  assert (length input_texts
          = length (mask_pad (Some p) (input_ids_of lm p input_texts)))
    as Hlen.
  { rewrite mask_pad_input_ids, !length_fmap. done. }
  rewrite Hlen at 1. rewrite mjoin_slices by done.
  by rewrite mask_pad_input_ids.
Qed.

(** C1: the value returned for a text is the exponential of the sum of
    its token losses divided by the number of its valid positions.  The
    token losses are those of the logits the forward pass returned for
    the text, scored against its shifted labels; the sum runs over all
    the shifted positions, an ignored one counting [fzero], and the
    divisor counts the positions that are not ignored.  When the
    reduction does not see zero summands this is the mean of the losses
    over the positions that are not ignored. *)
Theorem perplexity_is_exp_mean_nll tk (m : PreTrainedModel T) ml gpus dmap
    (lm : LM T) input_texts batch fr :
  pretrained_ok tk m → LM_init tk m ml gpus dmap = Ok lm →
  positive_batch (length (as_list input_texts)) batch →
  let l := as_list input_texts in
  let b := batch_size (length l) batch in
  ∃ p, pad_token_id (tokenizer lm) = Some p ∧
    get_perplexity lm input_texts batch fr
    = mapM py_exp
        (imap (λ i s,
                 let shift_logits := drop_last (text_logits lm p l b i) in
                 let shift_label := tail (label_of_text lm p l s) in
                 fdiv_int (fsum (zip_with ce_val shift_logits shift_label))
                   (count_valid shift_label)) l)
        ≫= pick (is_str input_texts) ∧
    (zero_neutral →
     get_perplexity lm input_texts batch fr
     = mapM py_exp
         (imap (λ i s,
                  mean_nll PAD_TOKEN_LABEL_ID
                    (drop_last (text_logits lm p l b i))
                    (tail (label_of_text lm p l s))) l)
         ≫= pick (is_str input_texts)).
Proof.
  intros Hpre Hinit Hb l b.
  destruct (get_perplexity_per_text _ _ _ _ _ _ input_texts batch fr
              Hpre Hinit Hb)
    as (p & c & st & Hok & Hrun & Hloss & Hget).
  fold l in Hloss. fold b in Hloss.
  assert (1 ≤ b)%nat as Hb1.
  { subst b l. unfold positive_batch, batch_size in *. lia. }
  exists p. split; [by destruct Hok|]. rewrite Hget, Hloss. split; [done|].
  intros Hz. do 2 f_equal. apply imap_ext. intros i s Hs.
  unfold text_loss. apply row_loss_mean_nll; [done|].
  rewrite length_drop_last, length_tail.
  destruct (text_logits_shape lm p c l b i s Hok Hb1 Hs) as [-> _].
  rewrite length_label_of_text; [done|]. by eapply list_elem_of_lookup_2.
Qed.

(** C2: the logits at position [j] of a text are scored against its
    label at position [j + 1]: the loss of a text is computed from these
    pairs for [j] from 0 to the padded width minus 2, so the last position
    of the logits and the first label take no part. *)
Theorem causal_shift_alignment tk (m : PreTrainedModel T) ml gpus dmap
    (lm : LM T) input_texts batch fr :
  pretrained_ok tk m → LM_init tk m ml gpus dmap = Ok lm →
  positive_batch (length (as_list input_texts)) batch →
  let l := as_list input_texts in
  let b := batch_size (length l) batch in
  let w := pad_width lm l in
  ∃ p, pad_token_id (tokenizer lm) = Some p ∧
    (∀ (i : nat) s, l !! i = Some s →
       length (text_logits lm p l b i) = w
       ∧ length (label_of_text lm p l s) = w) ∧
    get_perplexity lm input_texts batch fr
    = mapM py_exp
        (imap (λ i s,
                 let logit := text_logits lm p l b i in
                 let label := label_of_text lm p l s in
                 fdiv_int
                   (fsum ((λ j, ce_val (default [] (logit !! j))
                                  (default 0 (label !! S j)))
                            <$> seq 0 (w - 1)))
                   (count_valid (tail label))) l)
        ≫= pick (is_str input_texts).
Proof.
  intros Hpre Hinit Hb l b w.
  destruct (get_perplexity_per_text _ _ _ _ _ _ input_texts batch fr
              Hpre Hinit Hb)
    as (p & c & st & Hok & Hrun & Hloss & Hget).
  fold l in Hloss. fold b in Hloss.
  assert (1 ≤ b)%nat as Hb1.
  { subst b l. unfold positive_batch, batch_size in *. lia. }
  assert (∀ (i : nat) s, l !! i = Some s →
            length (text_logits lm p l b i) = w
            ∧ length (label_of_text lm p l s) = w) as Hlen.
  { intros i s Hs. split.
    - by destruct (text_logits_shape lm p c l b i s Hok Hb1 Hs).
    - apply length_label_of_text. by eapply list_elem_of_lookup_2. }
  exists p. split; [by destruct Hok|]. split; [done|].
  rewrite Hget, Hloss. do 2 f_equal. apply imap_ext. intros i s Hs.
  destruct (Hlen i s Hs) as [Hlg Hlb]. cbv zeta.
  unfold text_loss, row_loss. f_equal. f_equal.
  by apply shift_pairs.
Qed.

(** C3: a position of a text that holds the pad id is labelled with
    [PAD_TOKEN_LABEL_ID] and is ignored by the loss: in the value returned
    for the text such a position adds [fzero] to the sum and is not
    counted in the divisor, the other positions add the loss of their
    token and are counted.  When the reduction does not see zero
    summands the value is the mean of the losses over the positions that
    do not hold the pad id. *)
Theorem pad_positions_ignored tk (m : PreTrainedModel T) ml gpus dmap
    (lm : LM T) input_texts batch fr :
  pretrained_ok tk m → LM_init tk m ml gpus dmap = Ok lm →
  positive_batch (length (as_list input_texts)) batch →
  let l := as_list input_texts in
  let b := batch_size (length l) batch in
  ∃ p st, pad_token_id (tokenizer lm) = Some p ∧
    run_batches lm l batch fr = Ok st ∧
    mjoin (it_label <$> history st)
    = (λ s, (λ t, if decide (t = Z.of_nat p) then PAD_TOKEN_LABEL_ID else t)
              <$> ids_of_text lm p l s) <$> l ∧
    get_perplexity lm input_texts batch fr
    = mapM py_exp
        (imap (λ i s,
                 let ids := tail (ids_of_text lm p l s) in
                 fdiv_int
                   (fsum (zip_with
                            (λ row t, if decide (t = Z.of_nat p) then fzero
                                      else nll row (Z.to_nat t))
                            (drop_last (text_logits lm p l b i)) ids))
                   (Z.of_nat (length (filter (λ t, t ≠ Z.of_nat p) ids))))
           l)
        ≫= pick (is_str input_texts) ∧
    (zero_neutral →
     get_perplexity lm input_texts batch fr
     = mapM py_exp
         (imap (λ i s,
                  mean_nll (Z.of_nat p)
                    (drop_last (text_logits lm p l b i))
                    (tail (ids_of_text lm p l s))) l)
         ≫= pick (is_str input_texts)).
Proof.
  intros Hpre Hinit Hb l b.
  destruct (loss_list_per_text _ _ _ _ _ _ l batch fr Hpre Hinit Hb)
    as (p & c & st & Hok & Hrun & Hhist & _ & _ & Hloss).
  fold b in Hloss, Hhist.
  assert (1 ≤ b)%nat as Hb1.
  { subst b l. unfold positive_batch, batch_size in *. lia. }
  destruct (LM_init_ok _ _ _ _ _ _ Hpre Hinit) as (p' & c' & Hok' & Htok & _).
  assert (p' = p) as ->.
  { destruct Hok as [Hp _], Hok' as [Hp' _]. congruence. }
  assert (get_perplexity lm input_texts batch fr
          = mapM py_exp (loss_list st) ≫= pick (is_str input_texts)) as Hget.
  { unfold get_perplexity. fold l. by rewrite Hrun. }
  assert (∀ s, tail (label_of_text lm p l s)
               = mask_id p <$> tail (ids_of_text lm p l s)) as Htail.
  { intros s. unfold label_of_text, ids_of_text. by rewrite fmap_tail. }
  assert (∀ s, Forall (λ t, 0 ≤ t) (tail (ids_of_text lm p l s))) as Hpos.
  { intros s. apply Forall_tail'. apply ids_of_text_nonneg. }
  exists p, st. split; [by destruct Hok|]. split; [done|]. split.
  { by rewrite (labels_in_order lm p c l b _ Hok Hb1 Hhist). }
  rewrite Hget, Hloss. split.
  - do 2 f_equal. apply imap_ext. intros i s Hs. cbv zeta.
    unfold text_loss, row_loss. rewrite Htail.
    by rewrite zip_with_masked, count_valid_nonneg.
  - intros Hz. do 2 f_equal. apply imap_ext. intros i s Hs.
    unfold text_loss. rewrite row_loss_mean_nll; [|done|].
    + rewrite Htail. apply (mean_nll_masked p c').
      apply Forall_tail'.
      pose proof (input_ids_tokens lm p c' l Htok) as Hall.
      rewrite Forall_forall in Hall. apply Hall. unfold input_ids_of.
      apply list_elem_of_fmap. exists s. split; [done|].
      by eapply list_elem_of_lookup_2.
    + rewrite length_drop_last, length_tail.
      destruct (text_logits_shape lm p c l b i s Hok Hb1 Hs) as [-> _].
      rewrite length_label_of_text; [done|]. by eapply list_elem_of_lookup_2.
Qed.
End Claims.

(** ** The result, the pad column, the tokenized inputs and the batches *)

Section Inputs.
Context {T : Type} `{Scalar T}.

Lemma mapM_is_ok {A B} (f : A → result B) (l : list A) :
  Forall (λ x, ∃ y, f x = Ok y) l → ∃ k, mapM f l = Ok k.
Proof.
  induction 1 as [|x l [y Hy] _ [k IH]]; [by exists []|].
  exists (y :: k). by rewrite mapM_cons, Hy, IH.
Qed.

(** C4, as the code has it: [get_perplexity] returns a value for a
    string and, for a list of strings, a list with one value per string
    in the order of the input; the value of a text is the exponential of
    its loss, and the call returns whenever [math.exp] does on every
    loss. *)
Theorem get_perplexity_result tk (m : PreTrainedModel T) ml gpus dmap
    (lm : LM T) input_texts batch fr :
  pretrained_ok tk m → LM_init tk m ml gpus dmap = Ok lm →
  positive_batch (length (as_list input_texts)) batch →
  let l := as_list input_texts in
  let b := batch_size (length l) batch in
  ∃ p, pad_token_id (tokenizer lm) = Some p ∧
    match input_texts with
    | Str s =>
        get_perplexity lm (Str s) batch fr
        = Float <$> py_exp (text_loss lm p [s] b 0 s)
    | Strs l =>
        get_perplexity lm (Strs l) batch fr
        = Floats <$> mapM py_exp (imap (text_loss lm p l b) l) ∧
        ∀ vs, get_perplexity lm (Strs l) batch fr = Ok (Floats vs) →
          length vs = length l ∧
          ∀ (i : nat) s, l !! i = Some s →
            ∃ v, vs !! i = Some v ∧ py_exp (text_loss lm p l b i s) = Ok v
    end ∧
    ((∀ (i : nat) s, l !! i = Some s →
        ∃ v, py_exp (text_loss lm p l b i s) = Ok v) →
     ∃ r, get_perplexity lm input_texts batch fr = Ok r).
Proof.
  intros Hpre Hinit Hb l b.
  destruct (get_perplexity_per_text _ _ _ _ _ _ input_texts batch fr
              Hpre Hinit Hb)
    as (p & c & st & Hok & Hrun & Hloss & Hget).
  fold l in Hloss. fold b in Hloss. rewrite Hloss in Hget.
  exists p. split; [by destruct Hok|]. split.
  - destruct input_texts as [s|l']; cbn [as_list is_str] in *.
    + subst l. rewrite Hget. cbn [imap]. apply pick_single.
    + subst l. rewrite Hget, pick_list. split; [done|].
      intros vs Hvs.
      destruct (mapM py_exp _) as [k|e] eqn:Hk; [|done].
      injection Hvs as ->. apply mapM_inv in Hk.
      split.
      { rewrite <- (Forall2_length _ _ _ Hk). by rewrite length_imap. }
      intros i s Hs.
      assert (imap (text_loss lm p l' b) l' !! i
              = Some (text_loss lm p l' b i s)) as Hi.
      { by rewrite list_lookup_imap, Hs. }
      destruct (Forall2_lookup_l _ _ _ _ _ Hk Hi) as (v & Hv & Hexp).
      by exists v.
  - intros Hexp.
    destruct (mapM_is_ok py_exp (imap (λ i s, text_loss lm p l b i s) l))
      as [k Hk].
    { apply Forall_forall. intros x (i & s & -> & Hs)%elem_of_lookup_imap.
      by apply Hexp. }
    rewrite Hget, Hk. bind_ok. unfold pick.
    destruct (is_str input_texts) eqn:Hstr; [|by eexists].
    destruct input_texts as [s|]; [|done]. subst l. cbn in Hk.
    destruct (py_exp _); [|done]. injection Hk as <-. by eexists.
Qed.

Lemma text_output_shape tk (m : PreTrainedModel T) ml gpus dmap (lm : LM T)
    p input_texts (b i : nat) s :
  pretrained_ok tk m → LM_init tk m ml gpus dmap = Ok lm →
  (1 ≤ b)%nat → input_texts !! i = Some s →
  length (text_output lm p input_texts b i) = pad_width lm input_texts
  ∧ Forall (λ col, length col = embeddings (model lm))
      (text_output lm p input_texts b i).
Proof.
  intros Hpre Hinit Hb Hs. destruct (batch_start_index b i Hb) as [Hi Hm].
  destruct (LM_init_inv _ _ _ _ _ _ Hinit) as (_ & Hfwd & _).
  unfold text_output, batch_of, logits. rewrite Hfwd.
  set (kw := (py_slice (batch_start b i) (batch_start b i + b)
                <$> fields_of lm p input_texts : kwargs)).
  pose proof (logits_shape _ _ Hpre (embeddings (model lm)) kw _
                (chunk_input_ids lm p input_texts _ b)) as Hshape.
  assert (py_slice (batch_start b i) (batch_start b i + b)
            (input_ids_of lm p input_texts) !! (i `mod` b)%nat
          = Some (ids_of_text lm p input_texts s)) as Hrow.
  { rewrite lookup_py_slice, decide_True, Hi by done. unfold input_ids_of.
    by rewrite list_lookup_fmap, Hs. }
  destruct (Forall2_lookup_r _ _ _ _ _ Hshape Hrow) as (x & Hx & Hlen & Hcols).
  rewrite Hx. cbn [default from_option]. unfold id. split; [|done].
  rewrite Hlen.
  pose proof (input_ids_rect lm p input_texts) as Hrect.
  rewrite Forall_forall in Hrect. apply Hrect. unfold input_ids_of.
  apply list_elem_of_fmap. exists s. split; [done|].
  by eapply list_elem_of_lookup_2.
Qed.

(** C5: the constructor adds a pad token, and an embedding for it,
    exactly when the tokenizer has none; exactly then the value of a text
    is computed from the logits of the forward pass without their last
    column, which is dropped before the shift and the loss; otherwise it
    is computed from the logits as the forward pass returned them. *)
Theorem pad_column_dropped tk (m : PreTrainedModel T) ml gpus dmap
    (lm : LM T) input_texts batch fr :
  pretrained_ok tk m → LM_init tk m ml gpus dmap = Ok lm →
  positive_batch (length (as_list input_texts)) batch →
  let l := as_list input_texts in
  let b := batch_size (length l) batch in
  ∃ p, pad_token_id (tokenizer lm) = Some p ∧
    (pad_token_initialized lm = true ↔ pad_token_id tk = None) ∧
    embeddings (model lm)
    = match pad_token_id tk with
      | None => S (vocab_len tk)
      | Some _ => embeddings m
      end ∧
    (∀ (i : nat) s, l !! i = Some s →
       length (text_output lm p l b i) = pad_width lm l ∧
       Forall (λ col, length col = embeddings (model lm))
         (text_output lm p l b i)) ∧
    get_perplexity lm input_texts batch fr
    = mapM py_exp
        (imap (λ i s,
                 let out := text_output lm p l b i in
                 let logit := match pad_token_id tk with
                              | None => drop_last <$> out
                              | Some _ => out
                              end in
                 row_loss (drop_last logit) (tail (label_of_text lm p l s)))
           l)
        ≫= pick (is_str input_texts).
Proof.
  intros Hpre Hinit Hb l b.
  destruct (get_perplexity_per_text _ _ _ _ _ _ input_texts batch fr
              Hpre Hinit Hb)
    as (p & c & st & Hok & Hrun & Hloss & Hget).
  fold l in Hloss. fold b in Hloss.
  assert (1 ≤ b)%nat as Hb1.
  { subst b l. unfold positive_batch, batch_size in *. lia. }
  destruct (LM_init_inv _ _ _ _ _ _ Hinit) as (_ & _ & Hemb & Hflag & _).
  exists p. split; [by destruct Hok|]. split_and!.
  - rewrite Hflag. apply bool_decide_eq_true.
  - done.
  - intros i s Hs. by eapply text_output_shape.
  - rewrite Hget, Hloss. do 2 f_equal. apply imap_ext. intros i s Hs.
    cbv zeta. unfold text_loss. rewrite text_logits_trim, Hflag.
    by destruct (pad_token_id tk).
Qed.

Lemma LM_init_sides tk (m : PreTrainedModel T) ml gpus dmap (lm : LM T) :
  LM_init tk m ml gpus dmap = Ok lm →
  encode (tokenizer lm) = encode tk
  ∧ padding_side (tokenizer lm) = padding_side tk
  ∧ truncation_side (tokenizer lm) = truncation_side tk
  ∧ model_max_length (tokenizer lm) = model_max_length tk
  ∧ max_length lm = ml.
Proof.
  intros Hinit.
  destruct (LM_init_inv _ _ _ _ _ _ Hinit) as (Htk & _ & _ & _ & Hml).
  rewrite Htk. by destruct (pad_token_id tk).
Qed.

Lemma fields_rect (lm : LM T) p input_texts key rows :
  fields_of lm p input_texts !! key = Some rows →
  Forall (λ r, length r = pad_width lm input_texts) rows.
Proof.
  unfold fields_of. intros Hk.
  apply lookup_insert_Some in Hk as [[_ <-]|[_ Hk]];
    [apply input_ids_rect|].
  apply lookup_singleton_Some in Hk as [_ <-]. apply attention_mask_rect.
Qed.

(** C6, as the code has it: the tokenizer is called once, on all the
    texts.  Every sequence is truncated to [max_length] (to
    [model_max_length] when none was given) and padded to [max_length],
    or, when none was given, to the longest truncated sequence of the
    whole input.  The fields are ["input_ids"] and ["attention_mask"]
    only, and the forward pass of a batch receives their rows of that
    batch: the value of a text is computed from its output. *)
Theorem padding_of_inputs tk (m : PreTrainedModel T) ml gpus dmap
    (lm : LM T) input_texts batch fr :
  pretrained_ok tk m → LM_init tk m ml gpus dmap = Ok lm →
  positive_batch (length (as_list input_texts)) batch →
  let l := as_list input_texts in
  let b := batch_size (length l) batch in
  let limit := default (model_max_length tk) ml in
  let seqs := (λ s, truncate (truncation_side tk) limit (encode tk s)) <$> l in
  let w := match ml with
           | Some n => n
           | None => max_list (length <$> seqs)
           end in
  ∃ p fields, pad_token_id (tokenizer lm) = Some p ∧
    encode_inputs lm l = Ok fields ∧
    fields
    = {[ "input_ids" :=
           (λ sq, pad_row (padding_side tk) (Z.of_nat p) w (Z.of_nat <$> sq))
             <$> seqs;
         "attention_mask" :=
           (λ sq, pad_row (padding_side tk) 0 w (replicate (length sq) 1))
             <$> seqs ]} ∧
    fields !! "token_type_ids" = None ∧
    Forall (λ sq, (length sq ≤ limit)%nat ∧ (length sq ≤ w)%nat) seqs ∧
    (∀ key rows, fields !! key = Some rows →
       length rows = length l ∧ Forall (λ r, length r = w) rows) ∧
    (∀ i, batch_of lm p l b i
          = py_slice (batch_start b i) (batch_start b i + b) <$> fields) ∧
    get_perplexity lm input_texts batch fr
    = mapM py_exp (imap (λ i s, text_loss lm p l b i s) l)
        ≫= pick (is_str input_texts).
Proof.
  intros Hpre Hinit Hb l b limit seqs w.
  destruct (get_perplexity_per_text _ _ _ _ _ _ input_texts batch fr
              Hpre Hinit Hb)
    as (p & c & st & Hok & Hrun & Hloss & Hget).
  fold l in Hloss. fold b in Hloss.
  destruct (LM_init_sides _ _ _ _ _ _ Hinit)
    as (Henc & Hside & Htrunc & Hmml & Hml).
  assert (l ≠ []) as Hne.
  { intros Hnil. destruct Hb as [Hb _]. fold l in Hb. rewrite Hnil in Hb.
    cbn in Hb. lia. }
  assert (truncated lm <$> l = seqs) as Hseqs.
  { subst seqs limit. apply list_fmap_ext. intros i s _.
    unfold truncated, seq_limit. by rewrite Henc, Htrunc, Hmml, Hml. }
  assert (pad_width lm l = w) as Hw.
  { subst w. unfold pad_width. rewrite Hml. destruct ml; [done|].
    by rewrite Hseqs. }
  exists p, (fields_of lm p l). split; [by destruct Hok|]. split_and!.
  - apply encode_inputs_ok; [by destruct Hok|done].
  - unfold fields_of, input_ids_of, attention_mask_of.
    rewrite Hw, Hside, <- Hseqs, <- !list_fmap_compose. done.
  - done.
  - rewrite <- Hseqs, <- Hw. apply Forall_fmap, Forall_forall. intros s Hs.
    cbn. split.
    + unfold truncated, seq_limit. rewrite length_truncate, Hmml, Hml.
      fold limit. lia.
    + apply length_truncated_le; [done|].
      rewrite Hml, Hmml. destruct ml as [n|]; cbn; [|lia].
      by apply (LM_init_limit _ _ _ _ _ _ Hinit).
  - intros key rows Hk. split; [by eapply fields_rows|].
    rewrite <- Hw. by eapply fields_rect.
  - done.
  - by rewrite Hget, Hloss.
Qed.

End Inputs.

(** ** Witnesses and counterexamples on the test double *)

Lemma demo_slice_invariant {T} (logit : list Z → nat → nat → T) :
  slice_invariant (Demo.net_of logit).
Proof.
  intros v kw s e. cbn. rewrite lookup_fmap.
  destruct (kw !! "input_ids") as [ids|]; cbn.
  - by rewrite py_slice_fmap.
  - by rewrite py_slice_nil.
Qed.

Lemma perplexity_is_exp_mean_nll_witness :
  ∃ p, pad_token_id (tokenizer Demo.lm) = Some p ∧
    get_perplexity Demo.lm (Strs ["ab"; "abc"]) (Some 1) false
    = mapM py_exp
        (imap (λ i s,
                 mean_nll PAD_TOKEN_LABEL_ID
                   (drop_last (text_logits Demo.lm p ["ab"; "abc"] 1 i))
                   (tail (label_of_text Demo.lm p ["ab"; "abc"] s)))
           ["ab"; "abc"])
        ≫= pick false.
Proof.
  destruct (perplexity_is_exp_mean_nll (Demo.tk None PadRight true) Demo.net
              None 0 false Demo.lm (Strs ["ab"; "abc"]) (Some 1) false)
    as (p & Hp & _ & Hmean).
  - apply (demo_pretrained Demo.SLogit).
  - reflexivity.
  - unfold positive_batch. simpl. lia.
  - exists p. split; [exact Hp|]. apply Hmean, demo_zero_neutral.
Defined.

Lemma causal_shift_alignment_witness :
  ∃ p, pad_token_id (tokenizer Demo.lm) = Some p ∧
    (∀ (i : nat) s, ["ab"; "abc"] !! i = Some s →
       length (text_logits Demo.lm p ["ab"; "abc"] 1 i) = 3%nat
       ∧ length (label_of_text Demo.lm p ["ab"; "abc"] s) = 3%nat) ∧
    get_perplexity Demo.lm (Strs ["ab"; "abc"]) (Some 1) false
    = mapM py_exp
        (imap (λ i s,
                 let logit := text_logits Demo.lm p ["ab"; "abc"] 1 i in
                 let label := label_of_text Demo.lm p ["ab"; "abc"] s in
                 fdiv_int
                   (fsum ((λ j, ce_val (default [] (logit !! j))
                                  (default 0 (label !! S j)))
                            <$> seq 0 2))
                   (count_valid (tail label))) ["ab"; "abc"])
        ≫= pick false.
Proof.
  apply (causal_shift_alignment (Demo.tk None PadRight true) Demo.net
           None 0 false Demo.lm (Strs ["ab"; "abc"]) (Some 1) false).
  - apply (demo_pretrained Demo.SLogit).
  - reflexivity.
  - unfold positive_batch. simpl. lia.
Defined.

Lemma pad_positions_ignored_witness :
  ∃ p st, pad_token_id (tokenizer Demo.lm) = Some p ∧
    run_batches Demo.lm ["ab"; "abc"] None false = Ok st ∧
    mjoin (it_label <$> history st) = [[1; 2; -100]; [1; 2; 0]] ∧
    get_perplexity Demo.lm (Strs ["ab"; "abc"]) None false
    = mapM py_exp
        (imap (λ i s,
                 mean_nll (Z.of_nat p)
                   (drop_last (text_logits Demo.lm p ["ab"; "abc"] 2 i))
                   (tail (ids_of_text Demo.lm p ["ab"; "abc"] s)))
           ["ab"; "abc"])
        ≫= pick false.
Proof.
  destruct (pad_positions_ignored (Demo.tk None PadRight true) Demo.net
              None 0 false Demo.lm (Strs ["ab"; "abc"]) None false)
    as (p & st & Hp & Hrun & Hlabel & _ & Hmean).
  - apply (demo_pretrained Demo.SLogit).
  - reflexivity.
  - unfold positive_batch. simpl. lia.
  - exists p, st. split; [exact Hp|]. split; [exact Hrun|].
    split; [|apply Hmean, demo_zero_neutral].
    rewrite Hlabel. injection Hp as <-. reflexivity.
Defined.

(** Class [LM] has no attribute [compute_perplexity]; its method is
    [get_perplexity]. *)
Lemma compute_perplexity_missing :
  LM_getattr "compute_perplexity" = Raise AttributeError
  ∧ LM_getattr "get_perplexity" = Ok Method.
Proof. split; reflexivity. Qed.

Lemma get_perplexity_result_witness :
  ∃ p, pad_token_id (tokenizer Demo.lm) = Some p ∧
    get_perplexity Demo.lm (Strs ["ab"; "abc"]) (Some 1) false
    = Floats <$> mapM py_exp
                   (imap (text_loss Demo.lm p ["ab"; "abc"] 1) ["ab"; "abc"])
    ∧ ∃ r, get_perplexity Demo.lm (Strs ["ab"; "abc"]) (Some 1) false = Ok r.
Proof.
  destruct (get_perplexity_result (Demo.tk None PadRight true) Demo.net
              None 0 false Demo.lm (Strs ["ab"; "abc"]) (Some 1) false)
    as (p & Hp & [Hget _] & Hret).
  - apply (demo_pretrained Demo.SLogit).
  - reflexivity.
  - unfold positive_batch. simpl. lia.
  - exists p. split; [exact Hp|]. split; [exact Hget|].
    apply Hret. intros i s _. eexists. reflexivity.
Defined.

Lemma pad_column_dropped_witness :
  ∃ p, pad_token_id (tokenizer Demo.lm) = Some p ∧
    (pad_token_initialized Demo.lm = true ↔ @None nat = None) ∧
    embeddings (model Demo.lm) = 4%nat ∧
    (∀ (i : nat) s, ["ab"; "abc"] !! i = Some s →
       length (text_output Demo.lm p ["ab"; "abc"] 1 i) = 3%nat ∧
       Forall (λ col, length col = 4%nat)
         (text_output Demo.lm p ["ab"; "abc"] 1 i)) ∧
    get_perplexity Demo.lm (Strs ["ab"; "abc"]) (Some 1) false
    = mapM py_exp
        (imap (λ i s,
                 row_loss
                   (drop_last
                      (drop_last <$> text_output Demo.lm p ["ab"; "abc"] 1 i))
                   (tail (label_of_text Demo.lm p ["ab"; "abc"] s)))
           ["ab"; "abc"])
        ≫= pick false.
Proof.
  apply (pad_column_dropped (Demo.tk None PadRight true) Demo.net
           None 0 false Demo.lm (Strs ["ab"; "abc"]) (Some 1) false).
  - apply (demo_pretrained Demo.SLogit).
  - reflexivity.
  - unfold positive_batch. simpl. lia.
Defined.

(** Two texts of three tokens and of one token scored in batches of one:
    the batch that holds the short text alone has sequences of length
    three, not of length one. *)
Lemma per_batch_padding_fails :
  batch_of Demo.lm 3 ["abc"; "a"] 1 1 !! "input_ids" = Some [[1; 3; 3]]
  ∧ ∃ st,
    run_batches Demo.lm ["abc"; "a"] (Some 1) false = Ok st ∧
    ¬ padded_per_batch Demo.lm ["abc"; "a"] 1 st.
Proof.
  split; [reflexivity|].
  destruct (run_batches Demo.lm ["abc"; "a"] (Some 1) false) as [st|e] eqn:Hrun;
    vm_compute in Hrun; [|done].
  injection Hrun as <-. eexists. split; [reflexivity|].
  intros Hc.
  specialize (Hc 1%nat _ [[1; 3; 3]] [1; 3; 3] eq_refl eq_refl).
  assert ([1; 3; 3] ∈ [[1; 3; 3]]) as Hin by apply list_elem_of_here.
  specialize (Hc Hin). vm_compute in Hc. done.
Qed.

Lemma padding_of_inputs_witness :
  ∃ p fields, pad_token_id (tokenizer Demo.lm) = Some p ∧
    encode_inputs Demo.lm ["abc"; "a"] = Ok fields ∧
    fields
    = {[ "input_ids" := [[1; 2; 0]; [1; Z.of_nat p; Z.of_nat p]];
         "attention_mask" := [[1; 1; 1]; [1; 0; 0]] ]} ∧
    get_perplexity Demo.lm (Strs ["abc"; "a"]) (Some 1) false
    = mapM py_exp
        (imap (λ i s, text_loss Demo.lm p ["abc"; "a"] 1 i s) ["abc"; "a"])
        ≫= pick false.
Proof.
  destruct (padding_of_inputs (Demo.tk None PadRight true) Demo.net
              None 0 false Demo.lm (Strs ["abc"; "a"]) (Some 1) false)
    as (p & fields & Hp & Henc & Hfields & _ & _ & _ & _ & Hget).
  - apply (demo_pretrained Demo.SLogit).
  - reflexivity.
  - unfold positive_batch. simpl. lia.
  - exists p, fields. split; [exact Hp|]. split; [exact Henc|].
    split; [rewrite Hfields; reflexivity|exact Hget].
Defined.




Lemma batch_size_irrelevant_witness :
  pretrained_ok (Demo.tk None PadRight true) Demo.net ∧
  slice_invariant Demo.net ∧
  get_perplexity Demo.lm (Strs ["ab"; "abc"; "c"]) (Some 2) false
  = get_perplexity Demo.lm (Strs ["ab"; "abc"; "c"]) None false.
Proof.
  split; [apply demo_pretrained|]. split; [apply demo_slice_invariant|].
  apply (batch_size_irrelevant (Demo.tk None PadRight true) Demo.net
           None 0 false Demo.lm (Strs ["ab"; "abc"; "c"]) 2 false).
  - apply demo_pretrained.
  - apply demo_slice_invariant.
  - reflexivity.
  - done.
  - lia.
Defined.


(** ** The scorer at work

    Evaluations of the embedding on the test double. *)

(** One text of two tokens: the logits at position 0, without their last
    column, are scored against the token at position 1. *)
Example demo_two_tokens :
  get_perplexity Demo.lm (Str "ab") None false
  = Ok (Float
          (Demo.SExp
             (Demo.SDiv
                (Demo.SSum
                   [Demo.SNll
                      [Demo.SLogit [1; 2] 0 0; Demo.SLogit [1; 2] 0 1;
                       Demo.SLogit [1; 2] 0 2] 2])
                1))).
Proof. reflexivity. Qed.

(** One text of one token: nothing is summed and the divisor is zero. *)
Example demo_one_token :
  get_perplexity Demo.lm (Str "a") None false
  = Ok (Float (Demo.SExp (Demo.SDiv (Demo.SSum []) 0))).
Proof. reflexivity. Qed.

(** [range] refuses a zero step; a call on no text fails in the
    tokenizer, before the loop; a negative step makes the loop empty. *)
Example demo_zero_batch :
  get_perplexity Demo.lm (Strs ["ab"]) (Some 0) false = Raise ValueError.
Proof. reflexivity. Qed.

Example demo_no_text :
  get_perplexity Demo.lm (Strs []) None false = Raise IndexError
  ∧ get_perplexity Demo.lm (Strs []) (Some 1) false = Raise IndexError.
Proof. split; reflexivity. Qed.

Example demo_negative_batch :
  get_perplexity Demo.lm (Strs ["ab"; "abc"]) (Some (-1)) false
  = Ok (Floats [])
  ∧ get_perplexity Demo.lm (Str "ab") (Some (-1)) false = Raise IndexError.
Proof. split; reflexivity. Qed.

(** The valid lengths of a text of three tokens and a text of one token
    scored together: padded on the right the short text has none, padded
    on the left it has one. *)
Example demo_valid_length_right :
  (λ st, it_valid_length <$> history st)
    <$> run_batches Demo.lm ["abc"; "a"] None false
  = Ok [[2; 0]].
Proof. reflexivity. Qed.

Example demo_valid_length_left :
  (λ st, it_valid_length <$> history st)
    <$> run_batches (Demo.left_lm_of Demo.SLogit) ["abc"; "a"] None false
  = Ok [[2; 1]].
Proof. reflexivity. Qed.

(** The constructor refuses a [max_length] beyond the model's. *)
Example demo_max_length :
  LM_init (Demo.tk None PadRight true) Demo.net (Some 5%nat) 0 false
  = Raise AssertionError.
Proof. reflexivity. Qed.

(** * Further properties of the code *)

(** ** The batch size at its edges *)

Section Edge.
Context {T : Type} `{Scalar T}.

Lemma LM_init_pad tk (m : PreTrainedModel T) ml gpus dmap (lm : LM T) :
  LM_init tk m ml gpus dmap = Ok lm →
  ∃ p, pad_token_id (tokenizer lm) = Some p.
Proof.
  intros Hinit.
  destruct (LM_init_inv _ _ _ _ _ _ Hinit) as (Htk & _).
  rewrite Htk. destruct (pad_token_id tk) as [p|] eqn:Hp; eauto.
Qed.

(** X1: [range] with step 0: on texts, a batch size of zero makes a
    constructed scorer raise [ValueError], after the tokenization and
    before any forward pass. *)
Theorem zero_batch_raises tk (m : PreTrainedModel T) ml gpus dmap (lm : LM T)
    input_texts fr :
  LM_init tk m ml gpus dmap = Ok lm →
  as_list input_texts ≠ [] →
  run_batches lm (as_list input_texts) (Some 0) fr = Raise ValueError
  ∧ get_perplexity lm input_texts (Some 0) fr = Raise ValueError.
Proof.
  intros Hinit Hne.
  destruct (LM_init_pad _ _ _ _ _ _ Hinit) as [p Hp].
  assert (run_batches lm (as_list input_texts) (Some 0) fr
          = Raise ValueError) as Hrun.
  { unfold run_batches. by rewrite (encode_inputs_ok lm p _ Hp Hne). }
  split; [done|]. unfold get_perplexity. by rewrite Hrun.
Qed.

(** X2: the loop does not run when the batch size is negative: on texts,
    no forward pass is made, a list input gives the empty list, and a
    string input, whose [ppl[0]] does not exist, gives [IndexError]. *)
Theorem empty_loop tk (m : PreTrainedModel T) ml gpus dmap (lm : LM T)
    input_texts b fr :
  LM_init tk m ml gpus dmap = Ok lm →
  as_list input_texts ≠ [] → b < 0 →
  (∃ st, run_batches lm (as_list input_texts) (Some b) fr = Ok st
         ∧ history st = [] ∧ loss_list st = []) ∧
  get_perplexity lm input_texts (Some b) fr
  = if is_str input_texts then Raise IndexError else Ok (Floats []).
Proof.
  intros Hinit Hne Hb.
  destruct (LM_init_pad _ _ _ _ _ _ Hinit) as [p Hp].
  assert (py_range (length (as_list input_texts)) b = Ok []) as Hrange.
  { unfold py_range. rewrite decide_False, decide_True by lia. done. }
  assert (∃ st, run_batches lm (as_list input_texts) (Some b) fr = Ok st
                ∧ history st = [] ∧ loss_list st = []) as (st & Hrun & Hh & Hl).
  { unfold run_batches. rewrite (encode_inputs_ok lm p _ Hp Hne).
    cbn [default from_option]. unfold id. bind_ok. rewrite Hrange.
    bind_ok. cbn [foldlM]. by eexists. }
  split; [by exists st|].
  unfold get_perplexity. rewrite Hrun. bind_ok. rewrite Hl.
  by destruct (is_str input_texts).
Qed.

Lemma encode_inputs_rows (lm : LM T) input_texts fields key
    (rows : list (list Z)) :
  encode_inputs lm input_texts = Ok fields → fields !! key = Some rows →
  length rows = length input_texts.
Proof.
  intros Henc Hk.
  destruct (pad_token_id (tokenizer lm)) as [p|] eqn:Hp;
    [destruct (decide (input_texts = [])) as [Hnil|Hne]|].
  - subst input_texts. unfold encode_inputs, tokenizer_call in Henc.
    rewrite Hp in Henc. by destruct (max_length lm).
  - rewrite (encode_inputs_ok lm p _ Hp Hne) in Henc.
    injection Henc as <-. by eapply fields_rows.
  - unfold encode_inputs, tokenizer_call in Henc. rewrite Hp in Henc.
    by destruct (max_length lm).
Qed.

Lemma batch_step_inputs (lm : LM T) (b b' : nat) fr (st : frame T) start :
  (py_slice start (start + b) <$> model_inputs st : kwargs)
  = py_slice start (start + b') <$> model_inputs st →
  batch_step lm b fr st start = batch_step lm b' fr st start.
Proof. intros Heq. unfold batch_step. by rewrite Heq. Qed.

(** X3: a batch size that is at least the number of texts is the default:
    the texts go through one forward pass and the run is the same, for
    any tokenizer and model. *)
Theorem oversized_batch (lm : LM T) input_texts (b : Z) fr :
  as_list input_texts ≠ [] →
  Z.of_nat (length (as_list input_texts)) ≤ b →
  run_batches lm (as_list input_texts) (Some b) fr
  = run_batches lm (as_list input_texts) None fr
  ∧ get_perplexity lm input_texts (Some b) fr
    = get_perplexity lm input_texts None fr.
Proof.
  intros Hne Hb.
  set (l := as_list input_texts) in *.
  assert (1 ≤ length l)%nat as Hn by (destruct l; [done|cbn; lia]).
  assert (run_batches lm l (Some b) fr = run_batches lm l None fr) as Hrun.
  { unfold run_batches. cbn [default from_option]. unfold id.
    destruct (encode_inputs lm l) as [fields|e] eqn:Henc; [|done].
    bind_ok. unfold py_range. rewrite !decide_False by lia.
    rewrite Nat2Z.id.
    replace ((length l + Z.to_nat b - 1) / Z.to_nat b)%nat with 1%nat.
    2:{ apply Nat.div_unique with (r := (length l - 1)%nat); lia. }
    replace ((length l + length l - 1) / length l)%nat with 1%nat.
    2:{ apply Nat.div_unique with (r := (length l - 1)%nat); lia. }
    bind_ok. cbn [seq fmap list_fmap foldlM]. rewrite !Nat.mul_0_l.
    rewrite (batch_step_inputs lm (Z.to_nat b) (length l)); [done|].
    cbn [model_inputs]. apply map_eq. intros key. rewrite !lookup_fmap.
    destruct (fields !! key) as [rows|] eqn:Hk; [|done].
    cbn [fmap option_fmap option_map]. f_equal.
    pose proof (encode_inputs_rows lm l fields key rows Henc Hk) as Hlen.
    unfold py_slice. rewrite drop_0, !take_ge by lia. done. }
  split; [done|]. unfold get_perplexity. fold l. by rewrite Hrun.
Qed.
End Edge.

(** ** The device of the model *)

Section Device.
Context {T : Type} `{Scalar T}.







End Device.

(** ** The tokenized inputs and the valid lengths *)

Section Tokens.
Context {T : Type} `{Scalar T}.

Lemma max_list_le (l : list nat) (n : nat) :
  Forall (λ x, x ≤ n)%nat l → (max_list l ≤ n)%nat.
Proof. induction 1; cbn; lia. Qed.

(** X5: when the constructor has returned, the tokenizer call of
    [get_perplexity] on texts returns the two fields ["input_ids"] and
    ["attention_mask"], each with one row per text, all rows of one width,
    and this width is at most the [model_max_length] of the pretrained
    tokenizer; it is [max_length] when that was given. *)
Theorem inputs_fit_model tk (m : PreTrainedModel T) ml gpus dmap (lm : LM T)
    input_texts :
  LM_init tk m ml gpus dmap = Ok lm → input_texts ≠ [] →
  ∃ ids mask w,
    encode_inputs lm input_texts
    = Ok {[ "input_ids" := ids; "attention_mask" := mask ]}
    ∧ length ids = length input_texts ∧ length mask = length input_texts
    ∧ Forall (λ r, length r = w) ids ∧ Forall (λ r, length r = w) mask
    ∧ (w ≤ model_max_length tk)%nat
    ∧ ∀ n, ml = Some n → w = n.
Proof.
  intros Hinit Hne. destruct (LM_init_pad _ _ _ _ _ _ Hinit) as [p Hp].
  destruct (LM_init_tokenizer _ _ _ _ _ _ Hinit) as (_ & _ & Hmml & Hml).
  pose proof (LM_init_limit _ _ _ _ _ _ Hinit) as Hlim.
  exists (input_ids_of lm p input_texts), (attention_mask_of lm input_texts),
    (pad_width lm input_texts).
  split_and!.
  - by rewrite (encode_inputs_ok lm p _ Hp Hne).
  - unfold input_ids_of. by rewrite length_fmap.
  - unfold attention_mask_of. by rewrite length_fmap.
  - apply input_ids_rect.
  - apply attention_mask_rect.
  - unfold pad_width. rewrite Hml. destruct ml as [n|]; [by apply Hlim|].
    apply max_list_le. rewrite !Forall_fmap. apply Forall_true. intros s.
    cbn. unfold truncated, seq_limit. rewrite Hml, length_truncate, Hmml.
    cbn. lia.
  - intros n ->. unfold pad_width. by rewrite Hml.
Qed.

Lemma count_valid_app (l k : list Z) :
  count_valid (l ++ k) = count_valid l + count_valid k.
Proof. unfold count_valid. rewrite filter_app, length_app. lia. Qed.

Lemma count_valid_pads (p n : nat) :
  count_valid (mask_id p <$> replicate n (Z.of_nat p)) = 0.
Proof.
  induction n as [|n IH]; [done|].
  cbn [replicate fmap list_fmap]. unfold count_valid in *.
  rewrite filter_cons_False; [done|].
  unfold mask_id. rewrite decide_True by done. intros Hne. by apply Hne.
Qed.

Lemma count_valid_tokens (p : nat) (toks : list nat) :
  p ∉ toks →
  count_valid (mask_id p <$> (Z.of_nat <$> toks)) = Z.of_nat (length toks).
Proof.
  induction toks as [|t toks IH]; [done|]. intros Hp.
  apply not_elem_of_cons in Hp as [Hne Hp]. specialize (IH Hp).
  cbn [fmap list_fmap length]. unfold count_valid in *.
  rewrite filter_cons_True.
  - cbn [length]. lia.
  - unfold mask_id. rewrite decide_False by lia.
    unfold PAD_TOKEN_LABEL_ID. lia.
Qed.

Lemma count_valid_pad_row (sd : side) (p w : nat) (toks : list nat) :
  p ∉ toks →
  count_valid (tail (mask_id p <$> pad_row sd (Z.of_nat p) w
                                      (Z.of_nat <$> toks)))
  = Z.of_nat (scored_positions sd w (length toks)).
Proof.
  intros Hp. unfold pad_row, scored_positions. rewrite length_fmap.
  destruct sd.
  - destruct (decide (length toks < w)%nat) as [Hlt|Hge].
    + destruct (w - length toks)%nat as [|k] eqn:Hk; [lia|].
      cbn [replicate app fmap list_fmap tail].
      rewrite fmap_app, count_valid_app, count_valid_pads.
      by rewrite count_valid_tokens.
    + replace (w - length toks)%nat with 0%nat by lia.
      cbn [replicate app]. destruct toks as [|t toks]; [done|].
      apply not_elem_of_cons in Hp as [_ Hp].
      cbn [fmap list_fmap tail length].
      rewrite (count_valid_tokens p toks Hp). lia.
  - destruct toks as [|t toks].
    + cbn [fmap list_fmap app length]. rewrite <- fmap_tail.
      destruct (w - 0)%nat as [|k]; [reflexivity|]. cbn [replicate tail].
      by rewrite count_valid_pads.
    + apply not_elem_of_cons in Hp as [_ Hp].
      cbn [fmap list_fmap app tail length].
      rewrite fmap_app, count_valid_app, count_valid_pads.
      rewrite (count_valid_tokens p toks Hp). lia.
Qed.

Lemma valid_lengths_of_history (hist : list (iteration T)) (lm : LM T)
    (f : nat → kwargs) (ss : list nat) :
  hist = (λ s, iteration_of lm (f s)) <$> ss →
  mjoin (it_valid_length <$> hist)
  = count_valid <$> mjoin (it_shift_label <$> hist).
Proof.
  intros ->. rewrite fmap_mjoin. f_equal.
  rewrite <- !list_fmap_compose. by apply list_fmap_ext.
Qed.

(** X6: the valid lengths of a run, text by text: when no token of a text is
    the pad id, a text of [len] tokens padded on the right is scored over
    [len - 1] positions; padded on the left it is scored over [len]
    positions when it is shorter than the padded width (the first token
    is then predicted from a pad position) and over [len - 1] otherwise. *)
Theorem valid_length_of_texts tk (m : PreTrainedModel T) ml gpus dmap
    (lm : LM T) input_texts batch fr p :
  pretrained_ok tk m → LM_init tk m ml gpus dmap = Ok lm →
  positive_batch (length input_texts) batch →
  pad_token_id (tokenizer lm) = Some p →
  Forall (λ s, p ∉ truncated lm s) input_texts →
  ∃ st, run_batches lm input_texts batch fr = Ok st ∧
    mjoin (it_valid_length <$> history st)
    = (λ s, Z.of_nat (scored_positions (padding_side tk)
                        (pad_width lm input_texts)
                        (length (truncated lm s))))
      <$> input_texts.
Proof.
  intros Hpre Hinit Hb Hp Hfree.
  destruct (run_facts _ _ _ _ _ _ input_texts batch fr Hpre Hinit Hb)
    as (p' & c & st & Hok & Hrun & _ & Hhist & _).
  assert (p' = p) as -> by (destruct Hok as [Hp' _]; congruence).
  destruct (LM_init_tokenizer _ _ _ _ _ _ Hinit) as (_ & Hside & _ & _).
  exists st. split; [done|].
  rewrite (valid_lengths_of_history _ _ _ _ Hhist).
  assert (1 ≤ batch_size (length input_texts) batch)%nat as Hb1.
  { unfold positive_batch, batch_size in *. lia. }
  rewrite (shift_labels_in_order lm p c input_texts _ _ Hok Hb1 Hhist).
  rewrite <- list_fmap_compose. apply Forall_fmap_ext.
  eapply Forall_impl; [exact Hfree|]. intros s Hs. cbn.
  unfold label_of_text. rewrite <- Hside. by apply count_valid_pad_row.
Qed.
End Tokens.

(** ** Texts scored together and alone *)

Section Together.
Context {T : Type} `{Scalar T}.

Lemma py_slice_one {A} (l : list A) (i : nat) (x : A) :
  l !! i = Some x → py_slice i (i + 1) l = [x].
Proof.
  intros Hx. unfold py_slice. rewrite (drop_S _ _ _ Hx).
  by replace (i + 1 - i)%nat with 1%nat by lia.
Qed.

Lemma fields_of_one (lm : LM T) p input_texts (i : nat) s :
  input_texts !! i = Some s →
  (py_slice i (i + 1) <$> fields_of lm p input_texts : kwargs)
  = {[ "input_ids" :=
         [pad_row (padding_side (tokenizer lm)) (Z.of_nat p)
            (pad_width lm input_texts) (Z.of_nat <$> truncated lm s)];
       "attention_mask" :=
         [pad_row (padding_side (tokenizer lm)) 0
            (pad_width lm input_texts)
            (replicate (length (truncated lm s)) 1)] ]}.
Proof.
  intros Hs. unfold fields_of.
  rewrite fmap_insert, map_fmap_singleton. f_equal.
  - apply py_slice_one. unfold input_ids_of.
    by rewrite list_lookup_fmap, Hs.
  - f_equal. apply py_slice_one. unfold attention_mask_of.
    by rewrite list_lookup_fmap, Hs.
Qed.

Lemma py_slice_one_inv {A} (l k : list A) (i j : nat) :
  (i < length l)%nat → (j < length k)%nat →
  py_slice i (i + 1) l = py_slice j (j + 1) k →
  l !! i = k !! j ∧ ∃ x, l !! i = Some x.
Proof.
  intros Hi Hj Heq.
  destruct (lookup_lt_is_Some_2 l i Hi) as [x Hx].
  destruct (lookup_lt_is_Some_2 k j Hj) as [y Hy].
  rewrite (py_slice_one _ _ _ Hx), (py_slice_one _ _ _ Hy) in Heq.
  injection Heq as ->. rewrite Hx, Hy. eauto.
Qed.

(** X8: when the forward pass treats the sequences of a batch independently,
    the value of a text depends on the text and on the width its
    sequence is padded to, and on nothing else: a text that occurs in two
    lists of the same padded width has the same loss and the same
    perplexity in both, at any batch sizes.  With [max_length] given the
    widths are always the same. *)
Theorem same_width_same_value tk (m : PreTrainedModel T) ml gpus dmap
    (lm : LM T) l l' batch batch' fr fr' (i j : nat) s :
  pretrained_ok tk m → slice_invariant m →
  LM_init tk m ml gpus dmap = Ok lm →
  positive_batch (length l) batch → positive_batch (length l') batch' →
  l !! i = Some s → l' !! j = Some s →
  pad_width lm l = pad_width lm l' →
  ∃ st st' x,
    run_batches lm l batch fr = Ok st ∧
    run_batches lm l' batch' fr' = Ok st' ∧
    loss_list st !! i = Some x ∧ loss_list st' !! j = Some x ∧
    ∀ vs vs',
      get_perplexity lm (Strs l) batch fr = Ok (Floats vs) →
      get_perplexity lm (Strs l') batch' fr' = Ok (Floats vs') →
      ∃ v, py_exp x = Ok v ∧ vs !! i = Some v ∧ vs' !! j = Some v.
Proof.
  intros Hpre Hinv Hinit Hb Hb' Hi Hj Hw.
  destruct (loss_list_single_batch _ _ _ _ _ _ l batch fr Hpre Hinv Hinit Hb)
    as (p & st & Hp & Hrun & Hloss).
  destruct (loss_list_single_batch _ _ _ _ _ _ l' batch' fr' Hpre Hinv Hinit
              Hb')
    as (p' & st' & Hp' & Hrun' & Hloss').
  assert (p' = p) as -> by congruence.
  destruct (LM_init_ok _ _ _ _ _ _ Hpre Hinit) as (p0 & c & Hok & _).
  assert (p0 = p) as -> by (destruct Hok as [Hp0 _]; congruence).
  pose proof (slice_invariant_init _ _ _ _ _ _ Hinv Hinit) as Hslice.
  assert (length (loss_list st) = length l) as Hlen.
  { rewrite Hloss, (length_iteration_loss lm p c _ (input_ids_of lm p l) Hok).
    - unfold input_ids_of. by rewrite length_fmap.
    - done. }
  assert (length (loss_list st') = length l') as Hlen'.
  { rewrite Hloss',
      (length_iteration_loss lm p c _ (input_ids_of lm p l') Hok).
    - unfold input_ids_of. by rewrite length_fmap.
    - done. }
  destruct (py_slice_one_inv (loss_list st) (loss_list st') i j)
    as (Heq & x & Hx).
  { rewrite Hlen. by eapply lookup_lt_Some. }
  { rewrite Hlen'. by eapply lookup_lt_Some. }
  { rewrite Hloss, Hloss'.
    rewrite <- !(iteration_loss_slice lm _ _ _ Hslice).
    rewrite (fields_of_one lm p l i s Hi), (fields_of_one lm p l' j s Hj).
    by rewrite Hw. }
  exists st, st', x. split_and!; try done; [congruence|].
  intros vs vs' Hget Hget'. unfold get_perplexity in Hget, Hget'.
  cbn [as_list is_str] in Hget, Hget'. rewrite Hrun in Hget.
  rewrite Hrun' in Hget'. revert Hget Hget'. bind_ok.
  rewrite !pick_list. intros Hget Hget'.
  destruct (mapM py_exp (loss_list st)) as [k|e] eqn:Hk; [|done].
  destruct (mapM py_exp (loss_list st')) as [k'|e] eqn:Hk'; [|done].
  injection Hget as ->. injection Hget' as ->.
  apply mapM_inv in Hk, Hk'.
  destruct (Forall2_lookup_l _ _ _ _ _ Hk Hx) as (v & Hv & Hxv).
  rewrite Heq in Hx.
  destruct (Forall2_lookup_l _ _ _ _ _ Hk' Hx) as (v' & Hv' & Hxv').
  exists v. split_and!; try done. congruence.
Qed.
End Together.

(** ** Sequences without valid positions *)

Section IEEEBatch.
Variables (prec emax : Z).
Variable nll_ : list spec_float → nat → spec_float.
Variable exp_ : spec_float → result spec_float.
Variable sum_ : list spec_float → spec_float.

Local Abbreviation ieee := (ieee_scalar prec emax nll_ exp_ sum_).

Lemma count_valid_zero (lb : list Z) :
  count_valid lb = 0 → Forall (λ t, t = PAD_TOKEN_LABEL_ID) lb.
Proof.
  unfold count_valid. induction lb as [|t lb IH]; intros Hc; [done|].
  destruct (decide (t = PAD_TOKEN_LABEL_ID)) as [->|Hne].
  - constructor; [done|]. apply IH.
    rewrite filter_cons_False in Hc; [done|]. intros Hne. by apply Hne.
  - rewrite filter_cons_True in Hc by done. cbn [length] in Hc. lia.
Qed.

Lemma sum_ignored (lg : list (list spec_float)) (lb : list Z) :
  Forall (λ t, t = PAD_TOKEN_LABEL_ID) lb →
  fsum (Scalar := ieee) (zip_with (ce_val (H := ieee)) lg lb)
  = S754_zero false.
Proof.
  intros Hlb.
  assert (forallb is_pos_zero (zip_with (ce_val (H := ieee)) lg lb) = true)
    as Hall.
  { revert lg. induction Hlb as [|t lb -> _ IH]; intros lg.
    { by destruct lg. }
    destruct lg as [|row lg]; [done|].
    cbn [zip_with forallb]. unfold ce_val at 1. rewrite decide_True by done.
    cbn [fzero ieee_scalar is_pos_zero andb]. apply IH. }
  cbn [fsum ieee_scalar]. by rewrite Hall.
Qed.

Lemma row_loss_nan (lg : list (list spec_float)) (lb : list Z) :
  count_valid lb = 0 → row_loss (H := ieee) lg lb = S754_nan.
Proof.
  intros Hc. unfold row_loss. rewrite Hc.
  rewrite (sum_ignored lg lb (count_valid_zero lb Hc)). reflexivity.
Qed.

(** X7: in IEEE arithmetic a sequence without valid positions has loss NaN,
    whatever the batch it is scored in: its sum of token losses is +0.0
    and is divided by 0.  [math.exp] maps NaN to NaN, so the perplexity
    returned for this text is NaN too. *)
Theorem zero_valid_length_nan tk (m : PreTrainedModel spec_float) ml gpus
    dmap (lm : LM spec_float) input_texts batch fr :
  pretrained_ok tk m → LM_init tk m ml gpus dmap = Ok lm →
  positive_batch (length input_texts) batch →
  ∃ st, run_batches (H := ieee) lm input_texts batch fr = Ok st ∧
    length (loss_list st) = length input_texts ∧
    ∀ i : nat, mjoin (it_valid_length <$> history st) !! i = Some 0 →
      loss_list st !! i = Some S754_nan ∧
      ∀ vs, get_perplexity (H := ieee) lm (Strs input_texts) batch fr
            = Ok (Floats vs) →
        vs !! i = Some S754_nan.
Proof.
  intros Hpre Hinit Hb.
  destruct (run_facts (H := ieee) _ _ _ _ _ _ input_texts batch fr
              Hpre Hinit Hb)
    as (p & c & st & Hok & Hrun & Hloss & Hhist & Hall).
  assert (1 ≤ batch_size (length input_texts) batch)%nat as Hb1.
  { unfold positive_batch, batch_size in *. lia. }
  pose proof (valid_lengths_of_history (H := ieee) _ _ _ _ Hhist) as Hvl.
  pose proof (shift_labels_in_order (H := ieee) lm p c input_texts _ _ Hok
                Hb1 Hhist) as Hlab.
  pose proof (snd_scored_rows (H := ieee) lm p c _ _ Hok Hall) as Hsnd.
  assert (loss_list st
          = (λ row, row_loss (H := ieee) row.1 row.2) <$> scored_rows st)
    as Hrows.
  { rewrite Hloss. apply loss_list_scored.
    eapply Forall_impl; [exact Hall|]. intros it Hit.
    exact (batch_ok_loss (H := ieee) lm p c _ it Hit). }
  exists st. split; [done|]. split.
  { rewrite Hrows, length_fmap.
    rewrite <- (length_fmap snd (scored_rows st)). unfold scored_rows.
    by rewrite Hsnd, Hlab, length_fmap. }
  intros i Hi.
  assert (loss_list st !! i = Some S754_nan) as Hnan.
  { rewrite Hvl, <- Hsnd in Hi. fold (scored_rows st) in Hi.
    rewrite <- list_fmap_compose, list_lookup_fmap in Hi.
    rewrite Hrows, list_lookup_fmap.
    destruct (scored_rows st !! i) as [row|]; [|done].
    cbn in Hi |- *. injection Hi as Hi. f_equal. by apply row_loss_nan. }
  split; [done|]. intros vs Hget. unfold get_perplexity in Hget.
  cbn [as_list is_str] in Hget. rewrite Hrun in Hget. revert Hget. bind_ok.
  rewrite pick_list. intros Hget.
  destruct (mapM _ (loss_list st)) as [k|e] eqn:Hk; [|done].
  injection Hget as ->. apply mapM_inv in Hk.
  destruct (Forall2_lookup_l _ _ _ _ _ Hk Hnan) as (v & Hv & Hxv).
  cbn in Hxv. by injection Hxv as <-.
Qed.
End IEEEBatch.

(** ** The keyword arguments of the loaders *)

Section LoaderFacts.
Context {D C : Type}.

Lemma tokenizer_params_keys online auth trust offload cache key
    (x : pyval D C) :
  tokenizer_params online auth trust offload cache !! key = Some x →
  key ∈ ["local_files_only"; "use_auth_token"; "trust_remote_code";
         "cache_dir"; "offload_folder"].
Proof.
  unfold tokenizer_params. intros Hk.
  destruct offload, cache;
    repeat (apply lookup_insert_Some in Hk as [[<- _]|[_ Hk]];
            [set_solver|]);
    apply lookup_singleton_Some in Hk as [<- _]; set_solver.
Qed.

(** X9: every keyword argument the tokenizer and configuration loaders
    receive reaches the model loader with the same value; an optional
    argument of the constructor is passed on exactly when it is not
    [None], and the tokenizer and configuration loaders never receive
    [torch_dtype], [device_map], [config] or [low_cpu_mem_usage]. *)
Theorem loader_params online auth trust offload cache (config : C)
    (dtype : option D) dmap low :
  let tp := tokenizer_params online auth trust offload cache in
  let mp := model_params tp config dtype dmap low in
  tp ⊆ mp
  ∧ mp !! "local_files_only" = Some (PyBool (negb online))
  ∧ mp !! "cache_dir" = PyStr <$> cache
  ∧ mp !! "offload_folder" = PyStr <$> offload
  ∧ mp !! "torch_dtype" = PyDtype <$> dtype
  ∧ mp !! "device_map" = PyStr <$> dmap
  ∧ mp !! "config" = Some (PyConfig config)
  ∧ mp !! "low_cpu_mem_usage" = Some (PyBool low)
  ∧ ∀ key, key ∈ ["torch_dtype"; "device_map"; "config";
                  "low_cpu_mem_usage"] → tp !! key = None.
Proof.
  intros tp mp.
  assert (∀ key, key ∈ ["torch_dtype"; "device_map"; "config";
                        "low_cpu_mem_usage"] → tp !! key = None) as Hnone.
  { intros key Hkey. destruct (tp !! key) as [x|] eqn:Hx; [|done].
    apply tokenizer_params_keys in Hx. exfalso.
    repeat (apply elem_of_cons in Hkey as [->|Hkey];
            [by repeat (apply elem_of_cons in Hx as [?|Hx]; [done|]);
                apply elem_of_nil in Hx|]).
    by apply elem_of_nil in Hkey. }
  split_and!; try done.
  - subst mp. unfold model_params. apply map_subseteq_spec. intros key x Hx.
    assert (key ∉ ["torch_dtype"; "device_map"; "config";
                   "low_cpu_mem_usage"]) as Hkey.
    { intros Hkey. apply Hnone in Hkey. congruence. }
    assert (key ≠ "torch_dtype" ∧ key ≠ "device_map" ∧ key ≠ "config"
            ∧ key ≠ "low_cpu_mem_usage") as (? & ? & ? & ?).
    { split_and!; intros ->; apply Hkey; set_solver. }
    destruct dmap, dtype; rewrite ?lookup_insert_ne by done;
      apply lookup_union_Some_raw; right;
      (split; [|done]); rewrite lookup_insert_ne by done;
      by apply lookup_singleton_ne.
  - subst tp mp. by destruct offload, cache, dtype, dmap.
  - subst tp mp. by destruct offload, cache, dtype, dmap.
  - subst tp mp. by destruct offload, cache, dtype, dmap.
  - subst tp mp. by destruct offload, cache, dtype, dmap.
  - subst tp mp. by destruct offload, cache, dtype, dmap.
  - subst tp mp. by destruct offload, cache, dtype, dmap.
  - subst tp mp. by destruct offload, cache, dtype, dmap.
Qed.
End LoaderFacts.

(** ** Witnesses of the further properties *)

Lemma zero_batch_raises_witness :
  run_batches Demo.lm ["ab"; "abc"] (Some 0) false = Raise ValueError
  ∧ get_perplexity Demo.lm (Strs ["ab"; "abc"]) (Some 0) false
    = Raise ValueError.
Proof.
  apply (zero_batch_raises (Demo.tk None PadRight true) Demo.net None 0
           false Demo.lm (Strs ["ab"; "abc"]) false).
  - reflexivity.
  - simpl. discriminate.
Defined.

Lemma empty_loop_witness :
  (∃ st, run_batches Demo.lm ["ab"] (Some (-1)) false = Ok st
         ∧ history st = [] ∧ loss_list st = [])
  ∧ get_perplexity Demo.lm (Str "ab") (Some (-1)) false = Raise IndexError.
Proof.
  apply (empty_loop (Demo.tk None PadRight true) Demo.net None 0 false
           Demo.lm (Str "ab") (-1) false).
  - reflexivity.
  - simpl. discriminate.
  - lia.
Defined.

Lemma oversized_batch_witness :
  run_batches Demo.lm ["ab"; "abc"] (Some 5) false
  = run_batches Demo.lm ["ab"; "abc"] None false
  ∧ get_perplexity Demo.lm (Strs ["ab"; "abc"]) (Some 5) false
    = get_perplexity Demo.lm (Strs ["ab"; "abc"]) None false.
Proof.
  apply (oversized_batch Demo.lm (Strs ["ab"; "abc"]) 5 false).
  - simpl. discriminate.
  - simpl. lia.
Defined.


Lemma inputs_fit_model_witness :
  ∃ ids mask w,
    encode_inputs
      {| tokenizer := tokenizer Demo.lm; model := model Demo.lm;
         pad_token_initialized := true; max_length := Some 3%nat;
         lm_device := Cpu |}
      ["ab"; "abcabc"]
    = Ok {[ "input_ids" := ids; "attention_mask" := mask ]}
    ∧ length ids = 2%nat ∧ length mask = 2%nat
    ∧ Forall (λ r, length r = w) ids ∧ Forall (λ r, length r = w) mask
    ∧ (w ≤ 4)%nat
    ∧ ∀ n, Some 3%nat = Some n → w = n.
Proof.
  apply (inputs_fit_model (Demo.tk None PadRight true) Demo.net
           (Some 3%nat) 0 false
           {| tokenizer := tokenizer Demo.lm; model := model Demo.lm;
              pad_token_initialized := true; max_length := Some 3%nat;
              lm_device := Cpu |}
           ["ab"; "abcabc"]).
  - reflexivity.
  - discriminate.
Defined.

Lemma valid_length_of_texts_witness :
  ∃ st,
    run_batches (Demo.left_lm_of Demo.SLogit) ["ab"; "abc"] (Some 1) false
    = Ok st
    ∧ mjoin (it_valid_length <$> history st) = [2; 2].
Proof.
  apply (valid_length_of_texts (Demo.tk None PadLeft true) Demo.net None 0
           false (Demo.left_lm_of Demo.SLogit) ["ab"; "abc"] (Some 1) false
           3).
  - apply demo_pretrained.
  - reflexivity.
  - unfold positive_batch. simpl. lia.
  - reflexivity.
  - repeat constructor; vm_compute; intros Hin;
      repeat (apply elem_of_cons in Hin as [Hin|Hin]; [discriminate|]);
      by apply elem_of_nil in Hin.
Defined.

Lemma zero_valid_length_nan_witness :
  ∃ st,
    run_batches (H := Demo.float_scalar) Demo.float_lm ["a"; "abc"] (Some 2)
      false = Ok st
    ∧ length (loss_list st) = 2%nat
    ∧ ∀ i : nat, mjoin (it_valid_length <$> history st) !! i = Some 0 →
        loss_list st !! i = Some S754_nan
        ∧ ∀ vs,
            get_perplexity (H := Demo.float_scalar) Demo.float_lm
              (Strs ["a"; "abc"]) (Some 2) false = Ok (Floats vs) →
            vs !! i = Some S754_nan.
Proof.
  apply (zero_valid_length_nan 24 128 (λ _ _, S754_zero false) Ok
           (foldl (SFadd 24 128) (S754_zero false))
           (Demo.tk None PadRight true) Demo.float_net None 0 false
           Demo.float_lm ["a"; "abc"] (Some 2) false).
  - apply demo_pretrained.
  - reflexivity.
  - unfold positive_batch. simpl. lia.
Defined.

Lemma same_width_same_value_witness :
  ∃ st st' x,
    run_batches Demo.lm ["ab"; "abc"] (Some 1) false = Ok st ∧
    run_batches Demo.lm ["abc"; "ab"; "c"] None true = Ok st' ∧
    loss_list st !! 0%nat = Some x ∧ loss_list st' !! 1%nat = Some x ∧
    ∀ vs vs',
      get_perplexity Demo.lm (Strs ["ab"; "abc"]) (Some 1) false
      = Ok (Floats vs) →
      get_perplexity Demo.lm (Strs ["abc"; "ab"; "c"]) None true
      = Ok (Floats vs') →
      ∃ v, py_exp x = Ok v ∧ vs !! 0%nat = Some v ∧ vs' !! 1%nat = Some v.
Proof.
  apply (same_width_same_value (Demo.tk None PadRight true) Demo.net None 0
           false Demo.lm ["ab"; "abc"] ["abc"; "ab"; "c"] (Some 1) None
           false true 0 1 "ab").
  - apply demo_pretrained.
  - apply demo_slice_invariant.
  - reflexivity.
  - unfold positive_batch. simpl. lia.
  - unfold positive_batch. simpl. lia.
  - reflexivity.
  - reflexivity.
  - reflexivity.
Defined.

